(** * QQ Bot API client ([src/api.ts]): credential cache, message
  sequence numbers, request wrapper and the send operations.

  The TypeScript module keeps two pieces of module-level state, the
  cached access token and the [msgSeqTracker] map, and talks to the
  outside through [Date.now()] and [fetch].  Here the state is passed
  explicitly, the clock readings and the outcome of each [fetch] are
  arguments, and every function returns the list of [fetch] calls it
  issued together with its completion (a value, or the [Error] it
  throws).  Values are taken at their declared TypeScript types, except
  that a parsed response body may be [null]; a JavaScript [number] is an
  integer of [Z]. *)

From Stdlib Require Import List ZArith Lia Bool String Ascii Arith.
From Stdlib Require Import DecimalString DecimalNat FinFun.
Import ListNotations.

Local Open Scope string_scope.
Local Open Scope list_scope.
Local Open Scope Z_scope.

(** ** [Map<string, number>]

  A JavaScript [Map] iterates in insertion order: [set] on a key already
  present overwrites the value where it stands, [set] on a new key
  appends, [delete] removes the entry.  An association list with distinct
  keys, oldest entry first. *)

Module JsMap.

Definition t : Type := list (string * Z).

Definition empty : t := [].

Fixpoint get (k : string) (m : t) : option Z :=
  match m with
  | [] => None
  | (k', v) :: rest => if String.eqb k' k then Some v else get k rest
  end.

Fixpoint set (k : string) (v : Z) (m : t) : t :=
  match m with
  | [] => [(k, v)]
  | (k', v') :: rest =>
      if String.eqb k' k then (k', v) :: rest else (k', v') :: set k v rest
  end.

Fixpoint delete (k : string) (m : t) : t :=
  match m with
  | [] => []
  | (k', v') :: rest =>
      if String.eqb k' k then rest else (k', v') :: delete k rest
  end.

Definition size (m : t) : Z := Z.of_nat (List.length m).

Definition keys (m : t) : list string := map fst m.

Definition has (k : string) (m : t) : bool :=
  match get k m with Some _ => true | None => false end.

(** The representation invariant of a [Map]: no key occurs twice. *)
Definition wf (m : t) : Prop := NoDup (keys m).

End JsMap.

(** ** The sequence generator (api.ts, lines 66-89) *)

(** [Math.floor(Date.now() / 1000) % 100000000], read once at load time. *)
Definition seqBaseTimeAt (startMs : Z) : Z := (startMs / 1000) mod 100000000.

(** Lines 81-84: [keys] is a snapshot taken before the loop; [keys[i]] past
    the end is [undefined], which is the key of no entry. *)
Definition evictOldest (m : JsMap.t) : JsMap.t :=
  let keys := JsMap.keys m in
  fold_left
    (fun acc i =>
       match nth_error keys i with
       | Some k => JsMap.delete k acc
       | None => acc
       end)
    (seq 0 500) m.

(** One call, with the branch of line 80 made visible. *)
Record SeqStep : Type := mkSeqStep {
  issued : Z;
  swept : bool;
  tracker : JsMap.t
}.

Section SequenceGenerator.

Variable seqBaseTime : Z.

Definition seqStep (msgId : string) (msgSeqTracker : JsMap.t) : SeqStep :=
  let current :=
    match JsMap.get msgId msgSeqTracker with Some v => v | None => 0 end in
  let next := current + 1 in
  let stored := JsMap.set msgId next msgSeqTracker in
  let full := 1000 <? JsMap.size stored in
  mkSeqStep (seqBaseTime + next) full
            (if full then evictOldest stored else stored).

Definition getNextMsgSeq (msgId : string) (msgSeqTracker : JsMap.t)
  : Z * JsMap.t :=
  let s := seqStep msgId msgSeqTracker in (issued s, tracker s).

(** A caller issuing calls one after the other. *)
Fixpoint runSeq (msgIds : list string) (m : JsMap.t) : list SeqStep :=
  match msgIds with
  | [] => []
  | k :: rest => let s := seqStep k m in s :: runSeq rest (tracker s)
  end.

Definition finalTracker (msgIds : list string) (m : JsMap.t) : JsMap.t :=
  fold_left (fun acc k => tracker (seqStep k acc)) msgIds m.

Definition sweepCount (msgIds : list string) (m : JsMap.t) : nat :=
  List.length (filter swept (runSeq msgIds m)).

End SequenceGenerator.

(** Vocabulary for statements about a run of calls: how often a key was
    used, how many different keys were used, and a table that holds, for
    every key used so far, the number of calls made with it. *)
Definition occurrences (k : string) (ks : list string) : nat :=
  count_occ string_dec ks k.

Definition distinctKeys (ks : list string) : nat :=
  List.length (nodup string_dec ks).

(** The entry a first call creates. *)
Definition fresh1 (k : string) : string * Z := (k, 1).

Definition counted (seen : list string) (m : JsMap.t) : Prop :=
  JsMap.wf m
  /\ forall k,
       JsMap.get k m
       = if (occurrences k seen =? 0)%nat then None
         else Some (Z.of_nat (occurrences k seen)).

(** ** Values built and received by the module *)

Set Warnings "-register-all".

(** JSON values, as the object literals of the source build them. *)
Inductive Json : Type :=
| JNull
| JBool (b : bool)
| JNum (n : Z)
| JStr (s : string)
| JArr (items : list Json)
| JObj (fields : list (string * Json)).

(** Property read on a value built from an object literal. *)
Fixpoint lookupField (name : string) (fields : list (string * Json))
  : option Json :=
  match fields with
  | [] => None
  | (k, v) :: rest => if String.eqb k name then Some v else lookupField name rest
  end.

Definition field (name : string) (v : Json) : option Json :=
  match v with
  | JObj fields => lookupField name fields
  | _ => None
  end.

(** JavaScript truthiness, at the types the source tests: a string is falsy
    exactly when empty, [undefined] is falsy, an object is truthy. *)
Definition truthyString (s : string) : bool := negb (String.eqb s "").

Definition truthyOpt (s : option string) : bool :=
  match s with
  | Some s => truthyString s
  | None => false
  end.

Definition truthyJson (v : Json) : bool :=
  match v with
  | JNull => false
  | JBool b => b
  | JNum n => negb (n =? 0)
  | JStr s => truthyString s
  | JArr _ => true
  | JObj _ => true
  end.

(** What a [catch (err)] clause receives: an [Error] with its message, or
    any other value, kept as the text [String(err)] gives for it. *)
Inductive Thrown : Type :=
| ThrownError (message : string)
| ThrownOther (text : string).

(** [err instanceof Error ? err.message : String(err)] *)
Definition describe (err : Thrown) : string :=
  match err with
  | ThrownError message => message
  | ThrownOther text => text
  end.

(** [new Error(message)] *)
Record JsError : Type := mkError { message : string }.

(** A body that parses to [null] is no object: reading a property of it
    throws a [TypeError], which no [catch] of the module wraps.  The
    message is the one V8 gives. *)
Definition nullReadMessage (property : string) : string :=
  ("Cannot read properties of null (reading '" ++ property ++ "')")%string.

Definition typeError (property : string) : JsError :=
  mkError (nullReadMessage property).

(** How a call of an [async] function ends. *)
Inductive Completion (A : Type) : Type :=
| Returned (a : A)
| Threw (e : JsError).

Arguments Returned {A} a.
Arguments Threw {A} e.

(** How an awaited promise of the platform settles. *)
Inductive Settled (A : Type) : Type :=
| Fulfilled (a : A)
| Rejected (err : Thrown).

Arguments Fulfilled {A} a.
Arguments Rejected {A} err.

(** A [Response], as far as the module reads it: [res.ok], and what
    [await res.json()] gives, a parsed body of type [T].  A body may be
    [null]; the casts of the source are the classes [TokenShaped],
    [ErrorShaped], [GatewayShaped] and [UploadShaped] below. *)
Record Response (T : Type) : Type := mkResponse {
  ok : bool;
  json : Settled T
}.

Arguments mkResponse {T} ok json.
Arguments ok {T} r.
Arguments json {T} r.

Record RequestInit : Type := mkRequestInit {
  method : string;
  headers : list (string * string);
  body : option string
}.

(** One call [fetch(url, init)]. *)
Record FetchCall : Type := mkFetchCall {
  url : string;
  init : RequestInit
}.

(** [JSON.stringify] at the type of its argument; the platform's. *)
Class Stringify (A : Type) : Type := JSON_stringify : A -> string.

Definition API_BASE : string := "https://sandbox.api.sgroup.qq.com".
Definition TOKEN_URL : string := "https://bots.qq.com/app/getAppAccessToken".
Definition IS_SANDBOX : bool := true.

(** ** The credential cache (api.ts, lines 13-59) *)

Record CachedToken : Type := mkCachedToken {
  token : string;
  expiresAt : Z
}.

(** [{ access_token?: string; expires_in?: number }] *)
Record TokenData : Type := mkTokenData {
  access_token : option string;
  expires_in : option Z
}.

Record TokenOutcome : Type := mkTokenOutcome {
  tokenResult : Completion string;
  cachedTokenAfter : option CachedToken;
  tokenFetches : list FetchCall
}.

(** The cast of line 37, [as { access_token?: string; expires_in?: number }]:
    the parsed body read at that type, or [None] when the body is [null]. *)
Class TokenShaped (B : Type) : Type := asTokenData : B -> option TokenData.

Section CredentialCache.

Context {stringifyJson : Stringify Json}.
Context {B : Type} {stringifyB : Stringify B} {tokenShapedB : TokenShaped B}.

Definition tokenCall (appId clientSecret : string) : FetchCall :=
  mkFetchCall TOKEN_URL
    (mkRequestInit "POST"
       [("Content-Type", "application/json")]
       (Some (JSON_stringify
                (JObj [("appId", JStr appId);
                       ("clientSecret", JStr clientSecret)])))).

(** Lines 24-51, entered when the cache is not used.  [now] is the reading
    of [Date.now()] on line 48. *)
Definition fetchAccessToken (appId clientSecret : string)
    (cachedToken : option CachedToken) (now : Z)
    (net : Settled (Response B)) : TokenOutcome :=
  let calls := [tokenCall appId clientSecret] in
  let throw msg := mkTokenOutcome (Threw (mkError msg)) cachedToken calls in
  match net with
  | Rejected err =>
      throw ("Network error getting access_token: " ++ describe err)%string
  | Fulfilled response =>
      match json response with
      | Rejected err =>
          throw ("Failed to parse access_token response: "
                 ++ describe err)%string
      | Fulfilled data =>
          match asTokenData data with
          | None =>
              mkTokenOutcome (Threw (typeError "access_token")) cachedToken
                calls
          | Some fields =>
              let missing :=
                throw ("Failed to get access_token: "
                       ++ JSON_stringify data)%string in
              match access_token fields with
              | None => missing
              | Some tok =>
                  if truthyString tok then
                    let fresh :=
                      mkCachedToken tok
                        (now + (match expires_in fields with
                                | Some s => s
                                | None => 7200
                                end) * 1000) in
                    mkTokenOutcome (Returned (token fresh)) (Some fresh) calls
                  else missing
              end
          end
      end
  end.

(** [nowCheck] is the reading of [Date.now()] on line 20 (taken only when a
    credential is cached), [nowStore] the one on line 48. *)
Definition getAccessToken (appId clientSecret : string)
    (cachedToken : option CachedToken) (nowCheck nowStore : Z)
    (net : Settled (Response B)) : TokenOutcome :=
  match cachedToken with
  | Some c =>
      if nowCheck <? expiresAt c - 5 * 60 * 1000 then
        mkTokenOutcome (Returned (token c)) cachedToken []
      else fetchAccessToken appId clientSecret cachedToken nowStore net
  | None => fetchAccessToken appId clientSecret cachedToken nowStore net
  end.

Definition clearTokenCache (cachedToken : option CachedToken)
  : option CachedToken := None.

End CredentialCache.

(** ** The request wrapper (api.ts, lines 94-133) *)

Module ErrorBody.
(** [{ message?: string; code?: number }] *)
Record t : Type := mk {
  message : option string;
  code : option Z
}.
End ErrorBody.

(** The cast [data as { message?: string; code?: number }] of line 128: the
    parsed body read at that type, or [None] when the body is [null]. *)
Class ErrorShaped (T : Type) : Type := asErrorBody : T -> option ErrorBody.t.

Record ApiOutcome (T : Type) : Type := mkApiOutcome {
  apiResult : Completion T;
  apiFetches : list FetchCall
}.

Arguments mkApiOutcome {T} apiResult apiFetches.
Arguments apiResult {T} a.
Arguments apiFetches {T} a.

Section RequestExecutor.

Context {stringifyJson : Stringify Json}.
Context {T : Type} {stringifyT : Stringify T} {errorShapedT : ErrorShaped T}.

Definition apiCall (accessToken method path : string) (body : option Json)
  : FetchCall :=
  mkFetchCall (API_BASE ++ path)%string
    (mkRequestInit method
       [("Authorization", ("QQBot " ++ accessToken)%string);
        ("Content-Type", "application/json")]
       (match body with
        | Some b => if truthyJson b then Some (JSON_stringify b) else None
        | None => None
        end)).

Definition apiRequest (accessToken method path : string)
    (body : option Json) (net : Settled (Response T)) : ApiOutcome T :=
  let calls := [apiCall accessToken method path body] in
  let throw msg := mkApiOutcome (Threw (mkError msg)) calls in
  match net with
  | Rejected err =>
      throw ("Network error [" ++ path ++ "]: " ++ describe err)%string
  | Fulfilled res =>
      match json res with
      | Rejected err =>
          throw ("Failed to parse response [" ++ path ++ "]: "
                 ++ describe err)%string
      | Fulfilled data =>
          if negb (ok res) then
            match asErrorBody data with
            | None => mkApiOutcome (Threw (typeError "message")) calls
            | Some error =>
                throw ("API Error [" ++ path ++ "]: "
                       ++ match ErrorBody.message error with
                          | Some m => m
                          | None => JSON_stringify data
                          end)%string
            end
          else mkApiOutcome (Returned data) calls
      end
  end.

End RequestExecutor.

(** ** The send and upload operations (api.ts, lines 146-378) *)

Inductive MediaFileType : Type := IMAGE | VIDEO | VOICE | FILE.

Definition mediaFileTypeCode (ft : MediaFileType) : Z :=
  match ft with
  | IMAGE => 1
  | VIDEO => 2
  | VOICE => 3
  | FILE => 4
  end.

Record UploadMediaResponse : Type := mkUploadMediaResponse {
  file_uuid : string;
  file_info : string;
  ttl : Z;
  id : option string
}.

(** [...(msgId ? { msg_id: msgId } : {})] *)
Definition msgIdSpread (msgId : option string) : list (string * Json) :=
  match msgId with
  | Some m => if truthyString m then [("msg_id", JStr m)] else []
  | None => []
  end.

(** [...(content ? { content } : {})] *)
Definition contentSpread (content : option string) : list (string * Json) :=
  match content with
  | Some c => if truthyString c then [("content", JStr c)] else []
  | None => []
  end.

(** The body of an upload response read as [UploadMediaResponse], the
    type the upload functions declare for it, or [None] when it is
    [null]. *)
Class UploadShaped (U : Type) : Type :=
  asUpload : U -> option UploadMediaResponse.

Section Facade.

Variable seqBaseTime : Z.

Context {stringifyJson : Stringify Json}.
Context {T : Type} {stringifyT : Stringify T} {errorShapedT : ErrorShaped T}.
Context {U : Type} {stringifyUpload : Stringify U}.
Context {errorShapedUpload : ErrorShaped U} {uploadShapedU : UploadShaped U}.

(** [msgId ? getNextMsgSeq(msgId) : 1] *)
Definition msgSeqFor (msgId : option string) (msgSeqTracker : JsMap.t)
  : Z * JsMap.t :=
  match msgId with
  | Some m =>
      if truthyString m then getNextMsgSeq seqBaseTime m msgSeqTracker
      else (1, msgSeqTracker)
  | None => (1, msgSeqTracker)
  end.

Definition c2cMessageBody (content : string) (msgSeq : Z)
    (msgId : option string) : Json :=
  JObj ([("content", JStr content);
         ("msg_type", JNum 0);
         ("msg_seq", JNum msgSeq)] ++ msgIdSpread msgId).

Definition sendC2CMessage (accessToken openid content : string)
    (msgId : option string) (msgSeqTracker : JsMap.t)
    (net : Settled (Response T)) : ApiOutcome T * JsMap.t :=
  let (msgSeq, tracker') := msgSeqFor msgId msgSeqTracker in
  (apiRequest accessToken "POST" ("/v2/users/" ++ openid ++ "/messages")%string
     (Some (c2cMessageBody content msgSeq msgId)) net,
   tracker').

Definition channelMessageBody (content : string) (msgId : option string)
  : Json :=
  JObj ([("content", JStr content)] ++ msgIdSpread msgId).

Definition sendChannelMessage (accessToken channelId content : string)
    (msgId : option string) (msgSeqTracker : JsMap.t)
    (net : Settled (Response T)) : ApiOutcome T * JsMap.t :=
  (apiRequest accessToken "POST"
     ("/channels/" ++ channelId ++ "/messages")%string
     (Some (channelMessageBody content msgId)) net,
   msgSeqTracker).

Definition groupMessageBody (content : string) (msgSeq : Z)
    (msgId : option string) : Json :=
  JObj ([("content", JStr content);
         ("msg_type", JNum 0);
         ("msg_seq", JNum msgSeq)] ++ msgIdSpread msgId).

Definition sendGroupMessage (accessToken groupOpenid content : string)
    (msgId : option string) (msgSeqTracker : JsMap.t)
    (net : Settled (Response T)) : ApiOutcome T * JsMap.t :=
  let (msgSeq, tracker') := msgSeqFor msgId msgSeqTracker in
  (apiRequest accessToken "POST"
     ("/v2/groups/" ++ groupOpenid ++ "/messages")%string
     (Some (groupMessageBody content msgSeq msgId)) net,
   tracker').

Definition proactiveMessageBody (content : string) : Json :=
  JObj [("content", JStr content); ("msg_type", JNum 0)].

Definition sendProactiveC2CMessage (accessToken openid content : string)
    (msgSeqTracker : JsMap.t) (net : Settled (Response T))
  : ApiOutcome T * JsMap.t :=
  (apiRequest accessToken "POST" ("/v2/users/" ++ openid ++ "/messages")%string
     (Some (proactiveMessageBody content)) net,
   msgSeqTracker).

Definition sendProactiveGroupMessage (accessToken groupOpenid content : string)
    (msgSeqTracker : JsMap.t) (net : Settled (Response T))
  : ApiOutcome T * JsMap.t :=
  (apiRequest accessToken "POST"
     ("/v2/groups/" ++ groupOpenid ++ "/messages")%string
     (Some (proactiveMessageBody content)) net,
   msgSeqTracker).

Definition uploadBody (fileType : MediaFileType) (url : string)
    (srvSendMsg : bool) : Json :=
  JObj [("file_type", JNum (mediaFileTypeCode fileType));
        ("url", JStr url);
        ("srv_send_msg", JBool srvSendMsg)].

(** [srvSendMsg = false]: an omitted argument takes the default. *)
Definition uploadC2CMedia (accessToken openid : string)
    (fileType : MediaFileType) (url : string) (srvSendMsg : option bool)
    (net : Settled (Response U)) : ApiOutcome U :=
  apiRequest accessToken "POST" ("/v2/users/" ++ openid ++ "/files")%string
    (Some (uploadBody fileType url
             (match srvSendMsg with Some b => b | None => false end))) net.

Definition uploadGroupMedia (accessToken groupOpenid : string)
    (fileType : MediaFileType) (url : string) (srvSendMsg : option bool)
    (net : Settled (Response U)) : ApiOutcome U :=
  apiRequest accessToken "POST"
    ("/v2/groups/" ++ groupOpenid ++ "/files")%string
    (Some (uploadBody fileType url
             (match srvSendMsg with Some b => b | None => false end))) net.

Definition mediaMessageBody (fileInfo : string) (msgSeq : Z)
    (msgId content : option string) : Json :=
  JObj ([("msg_type", JNum 7);
         ("media", JObj [("file_info", JStr fileInfo)]);
         ("msg_seq", JNum msgSeq)]
        ++ contentSpread content ++ msgIdSpread msgId).

Definition sendC2CMediaMessage (accessToken openid fileInfo : string)
    (msgId content : option string) (msgSeqTracker : JsMap.t)
    (net : Settled (Response T)) : ApiOutcome T * JsMap.t :=
  let (msgSeq, tracker') := msgSeqFor msgId msgSeqTracker in
  (apiRequest accessToken "POST" ("/v2/users/" ++ openid ++ "/messages")%string
     (Some (mediaMessageBody fileInfo msgSeq msgId content)) net,
   tracker').

Definition sendGroupMediaMessage (accessToken groupOpenid fileInfo : string)
    (msgId content : option string) (msgSeqTracker : JsMap.t)
    (net : Settled (Response T)) : ApiOutcome T * JsMap.t :=
  let (msgSeq, tracker') := msgSeqFor msgId msgSeqTracker in
  (apiRequest accessToken "POST"
     ("/v2/groups/" ++ groupOpenid ++ "/messages")%string
     (Some (mediaMessageBody fileInfo msgSeq msgId content)) net,
   tracker').

(** Upload, then send; a failed upload ends the call before the send, and
    so does the read of [uploadResult.file_info] on an upload that
    returned [null]. *)
Definition sendC2CImageMessage (accessToken openid imageUrl : string)
    (msgId content : option string) (msgSeqTracker : JsMap.t)
    (netUpload : Settled (Response U))
    (netSend : Settled (Response T)) : ApiOutcome T * JsMap.t :=
  let up := uploadC2CMedia accessToken openid IMAGE imageUrl (Some false)
              netUpload in
  match apiResult up with
  | Threw e => (mkApiOutcome (Threw e) (apiFetches up), msgSeqTracker)
  | Returned uploadResult =>
      match asUpload uploadResult with
      | None =>
          (mkApiOutcome (Threw (typeError "file_info")) (apiFetches up),
           msgSeqTracker)
      | Some uploaded =>
          let (sent, tracker') :=
            sendC2CMediaMessage accessToken openid (file_info uploaded)
              msgId content msgSeqTracker netSend in
          (mkApiOutcome (apiResult sent) (apiFetches up ++ apiFetches sent),
           tracker')
      end
  end.

Definition sendGroupImageMessage (accessToken groupOpenid imageUrl : string)
    (msgId content : option string) (msgSeqTracker : JsMap.t)
    (netUpload : Settled (Response U))
    (netSend : Settled (Response T)) : ApiOutcome T * JsMap.t :=
  let up := uploadGroupMedia accessToken groupOpenid IMAGE imageUrl
              (Some false) netUpload in
  match apiResult up with
  | Threw e => (mkApiOutcome (Threw e) (apiFetches up), msgSeqTracker)
  | Returned uploadResult =>
      match asUpload uploadResult with
      | None =>
          (mkApiOutcome (Threw (typeError "file_info")) (apiFetches up),
           msgSeqTracker)
      | Some uploaded =>
          let (sent, tracker') :=
            sendGroupMediaMessage accessToken groupOpenid
              (file_info uploaded) msgId content msgSeqTracker netSend in
          (mkApiOutcome (apiResult sent) (apiFetches up ++ apiFetches sent),
           tracker')
      end
  end.

End Facade.

(** ** Vocabulary of the specification *)

(** The specification names three kinds of failure of the request wrapper.
    The source throws a plain [Error] at three places; the kind is read off
    the message each place builds. *)
Inductive ErrorKind : Type := TransportError | DecodeError | ApiError.

Definition kindPrefix (kind : ErrorKind) : string :=
  match kind with
  | TransportError => "Network error ["
  | DecodeError => "Failed to parse response ["
  | ApiError => "API Error ["
  end.

Definition hasKind (kind : ErrorKind) (path : string) (e : JsError)
    (detail : string) : Prop :=
  message e = (kindPrefix kind ++ path ++ "]: " ++ detail)%string.

(** A credential is usable at [now] while [now < expiresAt - 5 min]. *)
Definition usableAt (now : Z) (cachedToken : option CachedToken) : Prop :=
  exists c, cachedToken = Some c /\ now < expiresAt c - 5 * 60 * 1000.

(** What a request body says about the sequence number and the message
    replied to. *)
Definition carries (obj : Json) (msgSeq : option Z) (msgId : option string)
  : Prop :=
  field "msg_seq" obj = option_map JNum msgSeq
  /\ field "msg_id" obj = option_map JStr msgId.

(** ** Concrete data for running the model *)

Module Sample.

(** Message identifiers "0", "1", "2", ... *)
Definition keyOf (n : nat) : string :=
  NilZero.string_of_uint (Nat.to_uint n).

Definition keysFrom (start count : nat) : list string :=
  map keyOf (seq start count).

Definition base : Z := 62208000.

(** A plain printer standing for [JSON.stringify] (no escaping). *)
Definition commaJoin (parts : list string) : string :=
  match parts with
  | [] => ""
  | p :: rest => fold_left (fun acc q => (acc ++ "," ++ q)%string) rest p
  end.

Definition quote (s : string) : string :=
  let q := ascii_of_nat 34 in (String q s ++ String q EmptyString)%string.

Fixpoint plainJson (v : Json) : string :=
  match v with
  | JNull => "null"
  | JBool b => if b then "true" else "false"
  | JNum n => NilZero.string_of_int (Z.to_int n)
  | JStr s => quote s
  | JArr items => ("[" ++ commaJoin (map plainJson items) ++ "]")%string
  | JObj fields =>
      ("{" ++ commaJoin
                (map (fun kv => (quote (fst kv) ++ ":" ++ plainJson (snd kv))%string)
                     fields) ++ "}")%string
  end.

Definition optField (name : string) (wrap : option Json)
  : list (string * Json) :=
  match wrap with
  | Some v => [(name, v)]
  | None => []
  end.

Definition tokenDataJson (d : TokenData) : Json :=
  JObj (optField "access_token" (option_map JStr (access_token d))
        ++ optField "expires_in" (option_map JNum (expires_in d))).

Definition errorBodyJson (e : ErrorBody.t) : Json :=
  JObj (optField "message" (option_map JStr (ErrorBody.message e))
        ++ optField "code" (option_map JNum (ErrorBody.code e))).

Definition uploadJson (u : UploadMediaResponse) : Json :=
  JObj ([("file_uuid", JStr (file_uuid u));
         ("file_info", JStr (file_info u));
         ("ttl", JNum (ttl u))]
        ++ optField "id" (option_map JStr (id u))).

#[export] Instance stringifyJson : Stringify Json := plainJson.
#[export] Instance stringifyTokenData : Stringify TokenData :=
  fun d => plainJson (tokenDataJson d).
#[export] Instance stringifyErrorBody : Stringify ErrorBody.t :=
  fun e => plainJson (errorBodyJson e).
#[export] Instance errorShapedErrorBody : ErrorShaped ErrorBody.t :=
  fun e => Some e.
#[export] Instance stringifyUpload : Stringify UploadMediaResponse :=
  fun u => plainJson (uploadJson u).
#[export] Instance errorShapedUpload : ErrorShaped UploadMediaResponse :=
  fun u => Some (ErrorBody.mk None None).
#[export] Instance tokenShapedTokenData : TokenShaped TokenData :=
  fun d => Some d.
#[export] Instance uploadShapedUpload : UploadShaped UploadMediaResponse :=
  fun u => Some u.

(** Bodies that may be [null]: [None] is the body that parses to [null],
    [Some a] a body of the declared type. *)
#[export] Instance stringifyNullable {A : Type} {stringifyA : Stringify A}
  : Stringify (option A) :=
  fun o => match o with Some a => JSON_stringify a | None => "null" end.
#[export] Instance errorShapedNullable {A : Type}
    {errorShapedA : ErrorShaped A} : ErrorShaped (option A) :=
  fun o => match o with Some a => asErrorBody a | None => None end.
#[export] Instance tokenShapedNullable {A : Type}
    {tokenShapedA : TokenShaped A} : TokenShaped (option A) :=
  fun o => match o with Some a => asTokenData a | None => None end.
#[export] Instance uploadShapedNullable {A : Type}
    {uploadShapedA : UploadShaped A} : UploadShaped (option A) :=
  fun o => match o with Some a => asUpload a | None => None end.

End Sample.

(** ** The gateway lookup (api.ts, lines 138-141) *)

Module Gateway.
(** [{ url: string }] *)
Record t : Type := mk { url : string }.
End Gateway.

(** The body of the gateway response read as [{ url: string }], the type
    [getGatewayUrl] declares for it, or [None] when it is [null]. *)
Class GatewayShaped (G : Type) : Type := asGateway : G -> option Gateway.t.

Section GatewayUrl.

Context {stringifyJson : Stringify Json}.
Context {G : Type} {stringifyGateway : Stringify G}.
Context {errorShapedGateway : ErrorShaped G}.
Context {gatewayShapedG : GatewayShaped G}.

(** [apiRequest] is called with three arguments: [body] is [undefined].
    The read [data.url] throws on a body that is [null]. *)
Definition getGatewayUrl (accessToken : string)
    (net : Settled (Response G)) : ApiOutcome string :=
  let got := apiRequest accessToken "GET" "/gateway" None net in
  match apiResult got with
  | Returned data =>
      match asGateway data with
      | None => mkApiOutcome (Threw (typeError "url")) (apiFetches got)
      | Some gateway =>
          mkApiOutcome (Returned (Gateway.url gateway)) (apiFetches got)
      end
  | Threw e => mkApiOutcome (Threw e) (apiFetches got)
  end.

End GatewayUrl.

(** ** Further vocabulary *)

(** Every counter of the table lies between 1 and the number of calls made
    so far with its key. *)
Definition withinCalls (seen : list string) (m : JsMap.t) : Prop :=
  forall k v, In (k, v) m -> 1 <= v <= Z.of_nat (occurrences k seen).

(** A request to the platform: under [API_BASE], with the token in the
    [Authorization] header. *)
Definition authorized (accessToken : string) (c : FetchCall) : Prop :=
  headers (init c)
  = [("Authorization", ("QQBot " ++ accessToken)%string);
     ("Content-Type", "application/json")]
  /\ exists path, url c = (API_BASE ++ path)%string.

(** The fetch completed, the body parsed, and the status is a success. *)
Definition succeeded {T : Type} (net : Settled (Response T)) (data : T) : Prop :=
  exists res, net = Fulfilled res /\ json res = Fulfilled data /\ ok res = true.

(** After one call each with [n] distinct keys from the empty table: the
    number of keys left, and the number of sweeps made. *)
Definition keptAfter (n : nat) : nat :=
  if (n <=? 1000)%nat then n else (501 + (n - 1001) mod 500)%nat.

Definition sweepsAfter (n : nat) : nat :=
  if (n <=? 1000)%nat then 0%nat else (1 + (n - 1001) / 500)%nat.

Module SampleGateway.

#[export] Instance stringifyGateway : Stringify Gateway.t :=
  fun g => Sample.plainJson (JObj [("url", JStr (Gateway.url g))]).
#[export] Instance errorShapedGateway : ErrorShaped Gateway.t :=
  fun g => Some (ErrorBody.mk None None).
#[export] Instance gatewayShapedGateway : GatewayShaped Gateway.t :=
  fun g => Some g.
#[export] Instance gatewayShapedNullable {A : Type}
    {gatewayShapedA : GatewayShaped A} : GatewayShaped (option A) :=
  fun o => match o with Some a => asGateway a | None => None end.

End SampleGateway.

(** * Properties *)

(** ** Facts about [JsMap] *)

Module JsMapFacts.
Import JsMap.

Ltac by_key k1 k2 :=
  destruct (String.eqb_spec k1 k2); subst; simpl; try congruence.

Lemma get_In k m : get k m <> None <-> In k (keys m).
Proof.
  induction m as [|[k' v'] rest IH]; simpl.
  - split; [congruence | tauto].
  - by_key k' k.
    + split; [auto | discriminate].
    + rewrite IH. split; [auto | intros [E | H]; [congruence | exact H]].
Qed.

Lemma get_notin k m : ~ In k (keys m) -> get k m = None.
Proof.
  intros H. destruct (get k m) eqn:E; [|reflexivity].
  exfalso. apply H, get_In. congruence.
Qed.

Lemma get_None_notin k m : get k m = None -> ~ In k (keys m).
Proof. intros E H. apply get_In in H. congruence. Qed.

Lemma get_set_same k v m : get k (set k v m) = Some v.
Proof.
  induction m as [|[k' v'] rest IH]; simpl.
  - now rewrite String.eqb_refl.
  - destruct (String.eqb k' k) eqn:E; simpl; rewrite E; auto.
Qed.

Lemma get_set_other k k' v m : k <> k' -> get k' (set k v m) = get k' m.
Proof.
  intros N. induction m as [|[k0 v0] rest IH]; simpl.
  - by_key k k'.
  - destruct (String.eqb k0 k) eqn:E; simpl.
    + apply String.eqb_eq in E. subst k0. by_key k k'.
    + now rewrite IH.
Qed.

Lemma set_fresh k v m : get k m = None -> set k v m = m ++ [(k, v)].
Proof.
  induction m as [|[k' v'] rest IH]; simpl; intros H.
  - reflexivity.
  - destruct (String.eqb k' k); [discriminate | now rewrite IH].
Qed.

Lemma keys_set_present k v v0 m :
  get k m = Some v0 -> keys (set k v m) = keys m.
Proof.
  induction m as [|[k' v'] rest IH]; simpl; intros H.
  - discriminate.
  - destruct (String.eqb k' k); simpl; [reflexivity | now rewrite IH].
Qed.

Lemma keys_app m1 m2 : keys (m1 ++ m2) = keys m1 ++ keys m2.
Proof. apply map_app. Qed.

Lemma keys_length m : List.length (keys m) = List.length m.
Proof. apply length_map. Qed.

Lemma keys_set k v m :
  keys (set k v m) = if has k m then keys m else keys m ++ [k].
Proof.
  unfold has. destruct (get k m) eqn:E.
  - eapply keys_set_present; eauto.
  - rewrite set_fresh, keys_app; auto.
Qed.

Lemma wf_set k v m : wf m -> wf (set k v m).
Proof.
  unfold wf. intros W. rewrite keys_set. unfold has.
  destruct (get k m) eqn:E; [exact W|].
  apply NoDup_app; [exact W | repeat constructor; simpl; tauto |].
  intros x Hx [<- | []]. now apply get_None_notin in E.
Qed.

Lemma wf_empty : wf empty.
Proof. constructor. Qed.

Lemma wf_skipn n m : wf m -> wf (skipn n m).
Proof.
  unfold wf, keys. rewrite <- skipn_map.
  revert n. induction (map fst m) as [|a l IH]; intros [|n] W; simpl; auto.
  apply IH. now inversion W.
Qed.

Lemma length_set_present k v v0 m :
  get k m = Some v0 -> List.length (set k v m) = List.length m.
Proof.
  intros H. rewrite <- !keys_length. f_equal. eapply keys_set_present; eauto.
Qed.

Lemma get_app_notin k m1 m2 :
  ~ In k (keys m1) -> get k (m1 ++ m2) = get k m2.
Proof.
  induction m1 as [|[k' v'] rest IH]; simpl; intros H; auto.
  by_key k' k; tauto.
Qed.

Lemma get_app_first k v m1 m2 :
  get k m1 = Some v -> get k (m1 ++ m2) = Some v.
Proof.
  induction m1 as [|[k' v'] rest IH]; simpl; intros H; [discriminate|].
  destruct (String.eqb k' k); auto.
Qed.

(** Deleting the first [n] keys of the snapshot, one after the other,
    drops the [n] oldest entries. *)
Lemma delete_prefix n m :
  wf m ->
  fold_left (fun acc k => delete k acc) (firstn n (keys m)) m = skipn n m.
Proof.
  revert m. induction n as [|n IH]; intros m W; [reflexivity|].
  destruct m as [|[k v] rest]; [reflexivity|].
  simpl. rewrite String.eqb_refl. apply IH. now inversion W.
Qed.

Lemma skipn_step {A : Type} (l : list A) n :
  nth_error l n = hd_error (skipn n l) /\ skipn (S n) l = tl (skipn n l).
Proof.
  revert l. induction n as [|n IH]; intros [|a l]; simpl; auto.
Qed.

Lemma index_loop (ks : list string) n start m :
  fold_left
    (fun acc i =>
       match nth_error ks i with
       | Some k => delete k acc
       | None => acc
       end) (seq start n) m
  = fold_left (fun acc k => delete k acc) (firstn n (skipn start ks)) m.
Proof.
  revert start m. induction n as [|n IH]; intros start m; [reflexivity|].
  simpl seq. simpl fold_left at 1. rewrite IH.
  destruct (skipn_step ks start) as [-> ->].
  destruct (skipn start ks) as [|k rest]; simpl; [now destruct n | reflexivity].
Qed.

End JsMapFacts.

(** ** The sequence generator *)

(** The base is the low eight decimal digits of the start time in seconds. *)
Lemma seqBaseTimeAt_range startMs : 0 <= seqBaseTimeAt startMs < 100000000.
Proof. unfold seqBaseTimeAt. apply Z.mod_pos_bound. lia. Qed.

Example seqBaseTimeAt_sample : seqBaseTimeAt 1762150000123 = 62150000.
Proof. reflexivity. Qed.

Section SequenceFacts.
Import JsMap JsMapFacts.

Variable base : Z.

Lemma evictOldest_skipn m : wf m -> evictOldest m = skipn 500 m.
Proof.
  intros W. unfold evictOldest. rewrite index_loop. simpl skipn.
  now apply delete_prefix.
Qed.

(** The three ways a call can go. *)
Lemma seqStep_present k v m :
  get k m = Some v -> size m <= 1000 ->
  seqStep base k m = mkSeqStep (base + (v + 1)) false (set k (v + 1) m).
Proof.
  intros G S. unfold seqStep. rewrite G.
  unfold size in *. rewrite (length_set_present k (v + 1) v m G).
  destruct (Z.ltb_spec 1000 (Z.of_nat (List.length m))); [lia | reflexivity].
Qed.

Lemma seqStep_fresh_room k m :
  get k m = None -> size m < 1000 ->
  seqStep base k m = mkSeqStep (base + 1) false (m ++ [(k, 1)]).
Proof.
  intros G S. unfold seqStep. rewrite G. simpl. rewrite set_fresh by exact G.
  unfold size in *. rewrite length_app. simpl.
  destruct (Z.ltb_spec 1000 (Z.of_nat (List.length m + 1))); [lia | reflexivity].
Qed.

Lemma seqStep_fresh_full k m :
  wf m -> get k m = None -> 1000 <= size m ->
  seqStep base k m = mkSeqStep (base + 1) true (skipn 500 (m ++ [(k, 1)])).
Proof.
  intros W G S. unfold seqStep. rewrite G. simpl.
  rewrite <- (set_fresh k 1 m G).
  unfold size in *.
  assert (L : List.length (set k 1 m) = (List.length m + 1)%nat)
    by (rewrite set_fresh by exact G; rewrite length_app; simpl; lia).
  rewrite L.
  destruct (Z.ltb_spec 1000 (Z.of_nat (List.length m + 1))); [|lia].
  rewrite evictOldest_skipn by now apply wf_set. reflexivity.
Qed.

Lemma seqStep_wf k m : wf m -> wf (tracker (seqStep base k m)).
Proof.
  intros W. unfold seqStep. simpl.
  destruct (1000 <? _).
  - rewrite evictOldest_skipn by now apply wf_set.
    now apply wf_skipn, wf_set.
  - now apply wf_set.
Qed.

Lemma runSeq_app ks1 ks2 m :
  runSeq base (ks1 ++ ks2) m
  = runSeq base ks1 m ++ runSeq base ks2 (finalTracker base ks1 m).
Proof.
  revert m. induction ks1 as [|k ks1 IH]; intros m; simpl; [reflexivity|].
  now rewrite IH.
Qed.

Lemma finalTracker_app ks1 ks2 m :
  finalTracker base (ks1 ++ ks2) m
  = finalTracker base ks2 (finalTracker base ks1 m).
Proof. apply fold_left_app. Qed.

Lemma sweepCount_app ks1 ks2 m :
  sweepCount base (ks1 ++ ks2) m
  = (sweepCount base ks1 m
     + sweepCount base ks2 (finalTracker base ks1 m))%nat.
Proof.
  unfold sweepCount. now rewrite runSeq_app, filter_app, length_app.
Qed.

Lemma runSeq_length ks m : List.length (runSeq base ks m) = List.length ks.
Proof.
  revert m. induction ks as [|k ks IH]; intros m; simpl; auto.
Qed.

(** New keys entering a table that has room for all of them. *)
Lemma run_fresh ks : forall m,
  wf m -> NoDup ks -> (forall k, In k ks -> ~ In k (keys m)) ->
  size m + Z.of_nat (List.length ks) <= 1000 ->
  finalTracker base ks m = m ++ map (fun k => (k, 1)) ks
  /\ Forall (fun s => issued s = base + 1 /\ swept s = false)
            (runSeq base ks m).
Proof.
  induction ks as [|k ks IH]; intros m W N D S.
  - simpl. rewrite app_nil_r. auto.
  - inversion N as [|? ? Nk Nks]; subst.
    assert (G : get k m = None) by (apply get_notin, D; now left).
    assert (E := seqStep_fresh_room k m G).
    unfold size in *. simpl List.length in S.
    specialize (E ltac:(lia)).
    destruct (IH (m ++ [(k, 1)])) as [F R].
    + rewrite <- (set_fresh k 1 m G). now apply wf_set.
    + exact Nks.
    + intros k' I. rewrite keys_app, in_app_iff. simpl.
      intros [H | [<- | []]]; [|contradiction].
      revert H. apply D. now right.
    + rewrite length_app. simpl. lia.
    + change (finalTracker base (k :: ks) m)
        with (finalTracker base ks (tracker (seqStep base k m))).
      change (runSeq base (k :: ks) m)
        with (seqStep base k m :: runSeq base ks (tracker (seqStep base k m))).
      rewrite E. simpl tracker. rewrite F, <- app_assoc.
      split; [reflexivity|]. constructor; [auto | exact R].
Qed.

End SequenceFacts.

Section SequenceClaims.
Import JsMap JsMapFacts.

Variable base : Z.

Lemma In_keys_skipn k n m : In k (keys (skipn n m)) -> In k (keys m).
Proof.
  intros H. rewrite <- (firstn_skipn n m), keys_app. apply in_or_app. now right.
Qed.

(** C9.  A call made on a table of at most 1000 keys leaves a table of at
    most 1000 keys in which the key of the call is present, bound to the
    returned value minus the base; the table is again a well-formed map.
    (When the call triggers the sweep, the key of the call is the newest
    entry and the sweep removes the 500 oldest.) *)
Theorem getNextMsgSeq_invariant (msgId : string) (m : JsMap.t) :
  wf m -> size m <= 1000 ->
  let r := getNextMsgSeq base msgId m in
  size (snd r) <= 1000
  /\ has msgId (snd r) = true
  /\ get msgId (snd r) = Some (fst r - base)
  /\ wf (snd r).
Proof.
  intros W S r.
  assert (Wr : wf (snd r)) by (apply seqStep_wf; exact W).
  assert (main : size (snd r) <= 1000 /\ get msgId (snd r) = Some (fst r - base)).
  { subst r. unfold getNextMsgSeq. cbn [fst snd].
    destruct (get msgId m) as [v|] eqn:G.
    - rewrite (seqStep_present base msgId v m G S).
      cbn [issued tracker]. unfold size in *. rewrite (length_set_present _ _ _ _ G).
      rewrite get_set_same. split; [lia | f_equal; lia].
    - assert (N : ~ In msgId (keys m)) by now apply get_None_notin.
      destruct (Z.eq_dec (size m) 1000) as [F|F].
      + rewrite (seqStep_fresh_full base msgId m W G) by lia.
        cbn [issued tracker]. unfold size in *.
        rewrite skipn_app.
        replace (500 - List.length m)%nat with 0%nat by lia.
        rewrite skipn_O, length_app, length_skipn.
        cbn [List.length]. split; [lia|].
        rewrite get_app_notin.
        * simpl. rewrite String.eqb_refl. f_equal. lia.
        * intros I. apply N. eapply In_keys_skipn; eauto.
      + rewrite (seqStep_fresh_room base msgId m G) by lia.
        cbn [issued tracker]. unfold size in *. rewrite length_app. simpl. split; [lia|].
        rewrite get_app_notin by exact N.
        simpl. rewrite String.eqb_refl. f_equal. lia. }
  destruct main as [B G]. unfold has. rewrite G. auto.
Qed.

End SequenceClaims.

Lemma getNextMsgSeq_invariant_witness :
  let m : JsMap.t := [("m1", 3); ("m2", 1)] in
  let r := getNextMsgSeq Sample.base "m1" m in
  JsMap.size (snd r) <= 1000
  /\ JsMap.has "m1" (snd r) = true
  /\ JsMap.get "m1" (snd r) = Some (fst r - Sample.base)
  /\ JsMap.wf (snd r).
Proof.
  apply (getNextMsgSeq_invariant Sample.base "m1" [("m1", 3); ("m2", 1)]).
  - repeat constructor; simpl; intuition discriminate.
  - vm_compute. discriminate.
Defined.

Section CountingRuns.
Import JsMap JsMapFacts.

Variable base : Z.

Lemma distinctKeys_incl l l' : incl l l' -> (distinctKeys l <= distinctKeys l')%nat.
Proof.
  intros I. unfold distinctKeys. apply NoDup_incl_length.
  - apply NoDup_nodup.
  - intros x Hx. apply nodup_In. apply I. eapply nodup_In; eauto.
Qed.

Lemma occurrences_snoc k k' seen :
  occurrences k' (seen ++ [k])
  = (occurrences k' seen + if String.eqb k k' then 1 else 0)%nat.
Proof.
  unfold occurrences. rewrite count_occ_app. simpl.
  destruct (string_dec k k') as [->|N].
  - now rewrite String.eqb_refl.
  - apply String.eqb_neq in N. now rewrite N.
Qed.

Lemma counted_empty : counted [] empty.
Proof. split; [apply wf_empty | reflexivity]. Qed.

Lemma counted_keys seen m : counted seen m -> incl (keys m) seen.
Proof.
  intros [_ C] k I. apply get_In in I. rewrite C in I.
  destruct (Nat.eqb_spec (occurrences k seen) 0); [congruence|].
  apply (count_occ_In string_dec). unfold occurrences in *. lia.
Qed.

(** While the keys used stay within 1000, a call stores and returns the
    number of calls made with its key, and sweeps nothing. *)
Lemma seqStep_counted seen m k :
  counted seen m -> (distinctKeys (seen ++ [k]) <= 1000)%nat ->
  let n := Z.of_nat (occurrences k (seen ++ [k])) in
  seqStep base k m = mkSeqStep (base + n) false (set k n m)
  /\ counted (seen ++ [k]) (set k n m).
Proof.
  intros C D n.
  assert (Hn : n = Z.of_nat (occurrences k seen) + 1).
  { subst n. rewrite occurrences_snoc, String.eqb_refl. lia. }
  assert (Cur : match get k m with Some v => v | None => 0 end
                = Z.of_nat (occurrences k seen)).
  { destruct C as [_ C]. rewrite C.
    destruct (Nat.eqb_spec (occurrences k seen) 0) as [->|]; reflexivity. }
  assert (C' : counted (seen ++ [k]) (set k n m)).
  { destruct C as [W C]. split; [now apply wf_set|].
    intros k'. rewrite occurrences_snoc.
    destruct (String.eqb_spec k k') as [<-|N].
    - rewrite get_set_same.
      destruct (Nat.eqb_spec (occurrences k seen + 1) 0); [lia|].
      f_equal. lia.
    - rewrite get_set_other by exact N. rewrite C, Nat.add_0_r. reflexivity. }
  split; [|exact C'].
  unfold seqStep. rewrite Cur, <- Hn.
  assert (L : (List.length (set k n m) <= 1000)%nat).
  { rewrite <- keys_length.
    etransitivity; [|exact D]. unfold distinctKeys.
    apply NoDup_incl_length; [apply C'|].
    intros x Hx. apply nodup_In. now apply (counted_keys _ _ C'). }
  unfold size.
  destruct (Z.ltb_spec 1000 (Z.of_nat (List.length (set k n m)))); [lia|].
  reflexivity.
Qed.

Lemma runSeq_counted rest : forall seen m i k,
  counted seen m -> (distinctKeys (seen ++ rest) <= 1000)%nat ->
  nth_error rest i = Some k ->
  nth_error (map issued (runSeq base rest m)) i
  = Some (base + Z.of_nat (occurrences k (seen ++ firstn (S i) rest))).
Proof.
  induction rest as [|k0 rest IH]; intros seen m i k C D E.
  - destruct i; discriminate.
  - assert (D0 : (distinctKeys (seen ++ [k0]) <= 1000)%nat).
    { etransitivity; [|exact D]. apply distinctKeys_incl.
      intros x Hx. apply in_app_iff in Hx. apply in_app_iff.
      destruct Hx as [H | [<- | []]]; [now left | right; now left]. }
    destruct (seqStep_counted seen m k0 C D0) as [St C'].
    change (runSeq base (k0 :: rest) m)
      with (seqStep base k0 m :: runSeq base rest (tracker (seqStep base k0 m))).
    rewrite St. cbn [tracker map issued].
    destruct i as [|i].
    + injection E as <-. rewrite firstn_cons, firstn_O. reflexivity.
    + cbn [nth_error] in *. rewrite firstn_cons.
      replace (seen ++ k0 :: firstn (S i) rest)
        with ((seen ++ [k0]) ++ firstn (S i) rest)
        by (rewrite <- app_assoc; reflexivity).
      apply IH; [exact C' | | exact E].
      rewrite <- app_assoc. exact D.
Qed.

End CountingRuns.

(** C1, as stated, fails: 1001 calls with the keys "0", ..., "1000" sweep
    the entry of "0" away, and the second call with "0" returns
    [base + 1] again instead of [base + 2]. *)
Lemma nth_call_counterexample :
  let calls := Sample.keysFrom 0 1001 ++ [Sample.keyOf 0] in
  nth_error calls 0 = Some "0"
  /\ nth_error calls 1001 = Some "0"
  /\ occurrences "0" (firstn 1002 calls) = 2%nat
  /\ nth_error (map issued (runSeq Sample.base calls JsMap.empty)) 0
     = Some (Sample.base + 1)
  /\ nth_error (map issued (runSeq Sample.base calls JsMap.empty)) 1001
     = Some (Sample.base + 1).
Proof. vm_compute. repeat split; reflexivity. Qed.

(** C1, amended.  From the empty table, in a run of calls that uses at most
    1000 different keys, the call at position [i] returns the base plus the
    number of calls made so far with its key (that call included), whatever
    calls for other keys come in between. *)
Theorem nth_call_within_capacity (base : Z) (msgIds : list string) :
  (distinctKeys msgIds <= 1000)%nat ->
  forall i k, nth_error msgIds i = Some k ->
  nth_error (map issued (runSeq base msgIds JsMap.empty)) i
  = Some (base + Z.of_nat (occurrences k (firstn (S i) msgIds))).
Proof.
  intros D i k E.
  apply (runSeq_counted base msgIds [] JsMap.empty i k);
    [apply counted_empty | exact D | exact E].
Qed.

Lemma nth_call_within_capacity_witness :
  (distinctKeys ["a"; "b"; "a"; "c"; "a"] <= 1000)%nat
  /\ nth_error
       (map issued (runSeq Sample.base ["a"; "b"; "a"; "c"; "a"] JsMap.empty)) 4
     = Some (Sample.base + 3).
Proof.
  assert (D : (distinctKeys ["a"; "b"; "a"; "c"; "a"] <= 1000)%nat)
    by (vm_compute; lia).
  split; [exact D|].
  exact (nth_call_within_capacity Sample.base ["a"; "b"; "a"; "c"; "a"] D
           4%nat "a" eq_refl).
Defined.

(** ** One sweep, and when *)

Section SweepFacts.
Import JsMap JsMapFacts.

Variable base : Z.

Lemma keys_fresh1 ks : keys (map fresh1 ks) = ks.
Proof. unfold keys. rewrite map_map. apply map_id. Qed.

Lemma NoDup_app_parts {A : Type} (l1 l2 : list A) :
  NoDup (l1 ++ l2) ->
  NoDup l1 /\ NoDup l2 /\ forall x, In x l1 -> ~ In x l2.
Proof.
  induction l1 as [|a l1 IH]; simpl; intros N.
  - repeat split; [constructor | exact N | tauto].
  - inversion N as [|? ? Na Nl]; subst.
    destruct (IH Nl) as (N1 & N2 & D).
    repeat split; [constructor; [|exact N1] | exact N2 |].
    + intros I. apply Na, in_or_app. now left.
    + intros x [<- | I] I2; [apply Na, in_or_app; now right|].
      now apply (D x).
Qed.

Lemma issued_fresh k m :
  get k m = None -> fst (getNextMsgSeq base k m) = base + 1.
Proof. intros G. unfold getNextMsgSeq, seqStep. rewrite G. reflexivity. Qed.

Lemma no_sweep_count ks m :
  Forall (fun s => issued s = base + 1 /\ swept s = false) (runSeq base ks m) ->
  sweepCount base ks m = 0%nat.
Proof.
  unfold sweepCount. induction 1 as [|s l [_ Hs] _ IH]; simpl; [reflexivity|].
  now rewrite Hs.
Qed.

(** The run of 1001 to 1500 new keys, cut at the call that fills the table:
    1000 calls that only append, the call that sweeps, the calls after it. *)
Lemma run_across_sweep (a c : list string) (k : string) :
  NoDup (a ++ k :: c) ->
  List.length a = 1000%nat -> (List.length c <= 499)%nat ->
  finalTracker base a empty = map fresh1 a
  /\ sweepCount base a empty = 0%nat
  /\ seqStep base k (map fresh1 a)
     = mkSeqStep (base + 1) true (map fresh1 (skipn 500 (a ++ [k])))
  /\ finalTracker base c (map fresh1 (skipn 500 (a ++ [k])))
     = map fresh1 (skipn 500 (a ++ k :: c))
  /\ sweepCount base c (map fresh1 (skipn 500 (a ++ [k]))) = 0%nat.
Proof.
  intros N La Lc.
  destruct (NoDup_app_parts _ _ N) as (Na & Nkc & D).
  inversion Nkc as [|? ? Nk Nc]; subst.
  destruct (run_fresh base a empty) as [Fa Ra];
    [apply wf_empty | exact Na | intros ? _ [] | unfold size; simpl; lia |].
  simpl app in Fa. fold fresh1 in Fa.
  assert (Wa : wf (map fresh1 a)) by (unfold wf; now rewrite keys_fresh1).
  assert (Sk : seqStep base k (map fresh1 a)
               = mkSeqStep (base + 1) true (map fresh1 (skipn 500 (a ++ [k])))).
  { rewrite seqStep_fresh_full.
    - f_equal. rewrite <- skipn_map, map_app. reflexivity.
    - exact Wa.
    - apply get_notin. rewrite keys_fresh1. intros I.
      apply (D k I). now left.
    - unfold size. rewrite length_map. lia. }
  set (mb := map fresh1 (skipn 500 (a ++ [k]))) in *.
  destruct (run_fresh base c mb) as [Fc Rc].
  - unfold wf, mb. rewrite keys_fresh1.
    rewrite skipn_app.
    replace (500 - List.length a)%nat with 0%nat by lia. rewrite skipn_O.
    apply NoDup_app.
    + clear -Na. rewrite <- (firstn_skipn 500 a) in Na.
      now apply NoDup_app_parts in Na.
    + repeat constructor. simpl. tauto.
    + intros x I [E | []]. subst x. apply (D k); [|now left].
      rewrite <- (firstn_skipn 500 a). apply in_or_app. now right.
  - exact Nc.
  - intros x Ic. unfold mb. rewrite keys_fresh1, skipn_app.
    replace (500 - List.length a)%nat with 0%nat by lia. rewrite skipn_O.
    intros I. apply in_app_or in I. destruct I as [I | [E | []]].
    + apply (D x); [|now right].
      rewrite <- (firstn_skipn 500 a). apply in_or_app. now right.
    + subst x. contradiction.
  - unfold size, mb. rewrite length_map, length_skipn, length_app.
    cbn [List.length]. lia.
  - repeat split.
    + exact Fa.
    + now apply no_sweep_count.
    + exact Sk.
    + rewrite Fc. unfold mb. rewrite <- map_app. f_equal.
      change (a ++ k :: c) with (a ++ [k] ++ c). rewrite app_assoc.
      rewrite (skipn_app 500 (a ++ [k]) c).
      replace (500 - List.length (a ++ [k]))%nat with 0%nat
        by (rewrite length_app; cbn [List.length]; lia).
      now rewrite skipn_O.
    + now apply no_sweep_count.
Qed.

End SweepFacts.

Section SampleKeys.
Import Sample.

Lemma to_uint_nonnil n : Nat.to_uint n <> Decimal.Nil.
Proof.
  intros H. pose proof (Unsigned.to_of (Nat.to_uint n)) as E.
  rewrite Unsigned.of_to, H in E. discriminate.
Qed.

Lemma keyOf_inj : Injective keyOf.
Proof.
  intros a b H. unfold keyOf in H.
  apply (f_equal NilZero.uint_of_string) in H.
  rewrite !NilZero.usu in H by apply to_uint_nonnil.
  injection H as H. now apply Unsigned.to_uint_inj.
Qed.

Lemma keysFrom_NoDup start count : NoDup (keysFrom start count).
Proof. apply Injective_map_NoDup; [exact keyOf_inj | apply seq_NoDup]. Qed.

Lemma keysFrom_length start count :
  List.length (keysFrom start count) = count.
Proof. unfold keysFrom. now rewrite length_map, length_seq. Qed.

End SampleKeys.

(** C2, as stated, fails: one call each with the 1501 distinct keys
    "0", ..., "1500" sweeps twice (at the 1001st and at the 1501st call)
    and removes the 1000 oldest keys, not 500. *)
Lemma one_sweep_counterexample :
  let msgIds := Sample.keysFrom 0 1501 in
  NoDup msgIds
  /\ (1000 < List.length msgIds)%nat
  /\ sweepCount Sample.base msgIds JsMap.empty = 2%nat
  /\ JsMap.keys (finalTracker Sample.base msgIds JsMap.empty)
     = Sample.keysFrom 1000 501.
Proof.
  split; [apply keysFrom_NoDup|].
  split; [rewrite keysFrom_length; lia|].
  vm_compute. split; reflexivity.
Qed.

(** C2, amended.  From the empty table, one call each with 1001 to 1500
    distinct keys sweeps exactly once, at the 1001st call; what is left is
    every key but the 500 used first, each with counter 1; and a further
    call with any of those 500 returns [base + 1]. *)
Theorem one_sweep_of_oldest_500 (base : Z) (msgIds : list string) :
  NoDup msgIds ->
  (1000 < List.length msgIds <= 1500)%nat ->
  sweepCount base msgIds JsMap.empty = 1%nat
  /\ nth_error (map swept (runSeq base msgIds JsMap.empty)) 1000 = Some true
  /\ finalTracker base msgIds JsMap.empty = map fresh1 (skipn 500 msgIds)
  /\ JsMap.keys (finalTracker base msgIds JsMap.empty) = skipn 500 msgIds
  /\ forall k, In k (firstn 500 msgIds) ->
       fst (getNextMsgSeq base k (finalTracker base msgIds JsMap.empty))
       = base + 1.
Proof.
  intros N [Lo Hi].
  assert (E : msgIds = firstn 1000 msgIds ++ skipn 1000 msgIds)
    by (symmetry; apply firstn_skipn).
  assert (La : List.length (firstn 1000 msgIds) = 1000%nat)
    by (rewrite length_firstn; lia).
  assert (Lc : List.length (skipn 1000 msgIds) = (List.length msgIds - 1000)%nat)
    by apply length_skipn.
  set (a := firstn 1000 msgIds) in *.
  destruct (skipn 1000 msgIds) as [|k c]; [simpl in Lc; lia|].
  simpl List.length in Lc.
  assert (N' := N). rewrite E in N'.
  destruct (run_across_sweep base a c k N' La ltac:(lia))
    as (Fa & Ca & Sk & Fc & Cc).
  assert (F : finalTracker base msgIds JsMap.empty
              = map fresh1 (skipn 500 msgIds)).
  { rewrite E at 1. rewrite finalTracker_app, Fa.
    change (finalTracker base (k :: c) (map fresh1 a))
      with (finalTracker base c (tracker (seqStep base k (map fresh1 a)))).
    rewrite Sk. cbn [tracker]. rewrite Fc, <- E. reflexivity. }
  split; [|split; [|split; [|split]]].
  - rewrite E, sweepCount_app, Ca, Fa.
    change (k :: c) with ([k] ++ c). rewrite sweepCount_app.
    unfold sweepCount at 1, finalTracker at 1. cbn [runSeq fold_left].
    rewrite Sk. cbn [filter swept tracker List.length]. rewrite Cc. reflexivity.
  - rewrite E, runSeq_app, map_app, nth_error_app2;
      rewrite length_map, runSeq_length, La; [|lia].
    rewrite Fa. cbn [runSeq map Nat.sub nth_error]. now rewrite Sk.
  - exact F.
  - rewrite F. apply keys_fresh1.
  - intros k' I. apply issued_fresh. apply JsMapFacts.get_notin.
    rewrite F, keys_fresh1.
    rewrite <- (firstn_skipn 500 msgIds) in N.
    apply NoDup_app_parts in N. now apply N.
Qed.

Lemma one_sweep_of_oldest_500_witness :
  let msgIds := Sample.keysFrom 0 1200 in
  NoDup msgIds
  /\ (1000 < List.length msgIds <= 1500)%nat
  /\ sweepCount Sample.base msgIds JsMap.empty = 1%nat
  /\ JsMap.keys (finalTracker Sample.base msgIds JsMap.empty)
     = skipn 500 msgIds
  /\ fst (getNextMsgSeq Sample.base "499"
            (finalTracker Sample.base msgIds JsMap.empty))
     = Sample.base + 1.
Proof.
  intros msgIds.
  assert (N : NoDup msgIds) by apply keysFrom_NoDup.
  assert (L : (1000 < List.length msgIds <= 1500)%nat)
    by (unfold msgIds; rewrite keysFrom_length; lia).
  destruct (one_sweep_of_oldest_500 Sample.base msgIds N L)
    as (C & _ & _ & K & R).
  split; [exact N|]. split; [exact L|]. split; [exact C|]. split; [exact K|].
  apply R. apply (nth_error_In _ 499). vm_compute. reflexivity.
Defined.

(** ** The credential cache *)

Section CredentialClaims.

Context {stringifyJson : Stringify Json}.
Context {B : Type} {stringifyB : Stringify B} {tokenShapedB : TokenShaped B}.

Lemma getAccessToken_hit appId clientSecret c nowCheck nowStore
    (net : Settled (Response B)) :
  nowCheck < expiresAt c - 5 * 60 * 1000 ->
  getAccessToken appId clientSecret (Some c) nowCheck nowStore net
  = mkTokenOutcome (Returned (token c)) (Some c) [].
Proof.
  intros L. unfold getAccessToken.
  destruct (Z.ltb_spec nowCheck (expiresAt c - 5 * 60 * 1000)); [reflexivity | lia].
Qed.

Lemma getAccessToken_miss appId clientSecret cachedToken nowCheck nowStore
    (net : Settled (Response B)) :
  ~ usableAt nowCheck cachedToken ->
  getAccessToken appId clientSecret cachedToken nowCheck nowStore net
  = fetchAccessToken appId clientSecret cachedToken nowStore net.
Proof.
  intros U. unfold getAccessToken. destruct cachedToken as [c|]; [|reflexivity].
  destruct (Z.ltb_spec nowCheck (expiresAt c - 5 * 60 * 1000)); [|reflexivity].
  exfalso. apply U. now exists c.
Qed.

Lemma fetchAccessToken_once appId clientSecret cachedToken now
    (net : Settled (Response B)) :
  tokenFetches (fetchAccessToken appId clientSecret cachedToken now net)
  = [tokenCall appId clientSecret].
Proof.
  unfold fetchAccessToken. destruct net as [res|err]; [|reflexivity].
  destruct (json res) as [data|err]; [|reflexivity].
  destruct (asTokenData data) as [fields|]; [|reflexivity].
  destruct (access_token fields) as [tok|]; [|reflexivity].
  now destruct (truthyString tok).
Qed.

(** A call that returns a token leaves that token in the cache. *)
Lemma returned_is_cached appId clientSecret cachedToken nowCheck nowStore
    (net : Settled (Response B)) t :
  tokenResult (getAccessToken appId clientSecret cachedToken nowCheck nowStore net)
  = Returned t ->
  exists c,
    cachedTokenAfter
      (getAccessToken appId clientSecret cachedToken nowCheck nowStore net)
    = Some c /\ token c = t.
Proof.
  unfold getAccessToken, fetchAccessToken.
  destruct cachedToken as [c|];
    [destruct (nowCheck <? expiresAt c - 5 * 60 * 1000)|];
    try (simpl; intros [= <-]; eexists; split; reflexivity);
    (destruct net as [res|err]; [|discriminate];
     destruct (json res) as [data|err]; [|discriminate];
     destruct (asTokenData data) as [fields|]; [|discriminate];
     destruct (access_token fields) as [tok|]; [|discriminate];
     destruct (truthyString tok); [|discriminate];
     simpl; intros [= <-]; eexists; split; reflexivity).
Qed.

(** C3.  A cached credential that is still usable is returned as it is and
    nothing is fetched; otherwise the call issues exactly one fetch, to the
    token endpoint.  Hence a call made inside the validity window of what
    an earlier call returned gives the same token and fetches nothing. *)
Theorem getAccessToken_fetches_when_stale
    (appId clientSecret : string) (cachedToken : option CachedToken)
    (nowCheck nowStore : Z) (net : Settled (Response B)) :
  let out :=
    getAccessToken appId clientSecret cachedToken nowCheck nowStore net in
  (forall c, cachedToken = Some c ->
     nowCheck < expiresAt c - 5 * 60 * 1000 ->
     tokenResult out = Returned (token c)
     /\ tokenFetches out = []
     /\ cachedTokenAfter out = cachedToken)
  /\ ((cachedToken = None
       \/ exists c, cachedToken = Some c
                    /\ nowCheck >= expiresAt c - 5 * 60 * 1000) ->
      tokenFetches out = [tokenCall appId clientSecret])
  /\ (forall t c nowCheck2 nowStore2 net2,
        tokenResult out = Returned t ->
        cachedTokenAfter out = Some c ->
        nowCheck2 < expiresAt c - 5 * 60 * 1000 ->
        let again :=
          getAccessToken appId clientSecret (cachedTokenAfter out)
            nowCheck2 nowStore2 net2 in
        tokenResult again = Returned t /\ tokenFetches again = []).
Proof.
  intros out. split; [|split].
  - intros c -> L. subst out. rewrite getAccessToken_hit by exact L. auto.
  - intros H. subst out. rewrite getAccessToken_miss.
    + apply fetchAccessToken_once.
    + intros (c & E & L). destruct H as [H | (c' & H & G)]; [congruence|].
      assert (c' = c) by congruence. subst c'. lia.
  - intros t c nowCheck2 nowStore2 net2 R C L again. subst out again.
    destruct (returned_is_cached _ _ _ _ _ _ _ R) as (c' & C' & T).
    assert (c' = c) by congruence. subst c'.
    rewrite C, getAccessToken_hit by exact L. simpl. now rewrite T.
Qed.

(** C8.  [clearTokenCache] leaves no credential, whatever was cached, and
    the call after it issues exactly one fetch, at any time. *)
Theorem clear_then_fetch
    (cachedToken : option CachedToken) (appId clientSecret : string)
    (nowCheck nowStore : Z) (net : Settled (Response B)) :
  clearTokenCache cachedToken = None
  /\ tokenFetches
       (getAccessToken appId clientSecret (clearTokenCache cachedToken)
          nowCheck nowStore net)
     = [tokenCall appId clientSecret].
Proof.
  split; [reflexivity|]. unfold clearTokenCache, getAccessToken.
  apply fetchAccessToken_once.
Qed.

End CredentialClaims.

Section CredentialFetch.

Context {stringifyJson : Stringify Json}.
Context {B : Type} {stringifyB : Stringify B} {tokenShapedB : TokenShaped B}.

(** X23.  When the cached credential is not usable, so that the call
    fetches, every failure leaves the cache as it was before the call,
    after exactly one fetch.  A rejected fetch and a body that does not
    parse end the call with an [Error] whose message carries the cause; a
    body that is not [null] and has no [access_token] ends it with an
    [Error] whose message carries the body; a body that is [null] ends it
    with the [TypeError] of the read of [access_token]. *)
Theorem getAccessToken_failure_keeps_cache
    (appId clientSecret : string) (cachedToken : option CachedToken)
    (nowCheck nowStore : Z) (net : Settled (Response B)) :
  ~ usableAt nowCheck cachedToken ->
  let out :=
    getAccessToken appId clientSecret cachedToken nowCheck nowStore net in
  let failed msg :=
    out = mkTokenOutcome (Threw (mkError msg)) cachedToken
            [tokenCall appId clientSecret] in
  (forall err, net = Rejected err ->
     failed ("Network error getting access_token: " ++ describe err)%string)
  /\ (forall res err, net = Fulfilled res -> json res = Rejected err ->
        failed ("Failed to parse access_token response: "
                ++ describe err)%string)
  /\ (forall res data fields,
        net = Fulfilled res -> json res = Fulfilled data ->
        asTokenData data = Some fields -> access_token fields = None ->
        failed ("Failed to get access_token: " ++ JSON_stringify data)%string)
  /\ (forall res data,
        net = Fulfilled res -> json res = Fulfilled data ->
        asTokenData data = None ->
        failed (nullReadMessage "access_token"))
  /\ (forall e, tokenResult out = Threw e ->
        cachedTokenAfter out = cachedToken
        /\ tokenFetches out = [tokenCall appId clientSecret]).
Proof.
  intros U out failed. subst out failed. cbv beta.
  rewrite getAccessToken_miss by exact U. unfold fetchAccessToken.
  split; [|split; [|split; [|split]]].
  - intros err ->. reflexivity.
  - intros res err -> ->. reflexivity.
  - intros res data fields -> -> -> ->. reflexivity.
  - intros res data -> -> ->. reflexivity.
  - intros e. destruct net as [res|err]; [|auto].
    destruct (json res) as [data|err]; [|auto].
    destruct (asTokenData data) as [fields|]; [|auto].
    destruct (access_token fields) as [tok|]; [|auto].
    destruct (truthyString tok); [discriminate | auto].
Qed.

(** C6, amended.  When the call fetches and the body received holds a
    non-empty [access_token], the cache becomes, as one value, that token
    with expiry [now + (expires_in ?? 7200) * 1000], and the token is
    returned; with [expires_in] absent the expiry is 7200 seconds after
    [now]. *)
Theorem getAccessToken_success_replaces_cache
    (appId clientSecret : string) (cachedToken : option CachedToken)
    (nowCheck nowStore : Z) (res : Response B) (body : B) (data : TokenData)
    (tok : string) :
  ~ usableAt nowCheck cachedToken ->
  json res = Fulfilled body ->
  asTokenData body = Some data ->
  access_token data = Some tok ->
  tok <> "" ->
  let out :=
    getAccessToken appId clientSecret cachedToken nowCheck nowStore
      (Fulfilled res) in
  let lifetime := match expires_in data with Some s => s | None => 7200 end in
  out = mkTokenOutcome (Returned tok)
          (Some (mkCachedToken tok (nowStore + lifetime * 1000)))
          [tokenCall appId clientSecret]
  /\ (expires_in data = None ->
      cachedTokenAfter out
      = Some (mkCachedToken tok (nowStore + 7200 * 1000))).
Proof.
  intros U J D A N out lifetime. subst out lifetime.
  rewrite getAccessToken_miss by exact U. unfold fetchAccessToken.
  rewrite J, D, A. unfold truthyString.
  destruct (String.eqb_spec tok ""); [contradiction|]. simpl.
  split; [reflexivity|]. now intros ->.
Qed.

End CredentialFetch.

Section CredentialSamples.
Import Sample.

(** C4.  The claim fails on a body that parses to [null]: with nothing
    usable in the cache, the call fetches once and then throws the
    [TypeError] of the read of [access_token] on line 42, which carries
    neither a cause nor the body, where the path beside it, for an object
    without [access_token], throws an [Error] that carries the body.  The
    cache is left as it was. *)
Lemma getAccessToken_null_body_type_error :
  let old := Some (mkCachedToken "old" 1000000) in
  let null : Settled (Response (option TokenData)) :=
    Fulfilled (mkResponse true (Fulfilled None)) in
  let object : Settled (Response (option TokenData)) :=
    Fulfilled (mkResponse true (Fulfilled (Some (mkTokenData None None)))) in
  getAccessToken "app" "secret" old 900000 900100 null
  = mkTokenOutcome
      (Threw (mkError "Cannot read properties of null (reading 'access_token')"))
      old [tokenCall "app" "secret"]
  /\ getAccessToken "app" "secret" old 900000 900100 object
     = mkTokenOutcome (Threw (mkError "Failed to get access_token: {}"))
         old [tokenCall "app" "secret"].
Proof. split; reflexivity. Qed.

Lemma getAccessToken_failure_keeps_cache_witness :
  let old := Some (mkCachedToken "old" 1000000) in
  let down : Settled (Response (option TokenData)) :=
    Rejected (ThrownError "ECONNRESET") in
  let res : Response (option TokenData) :=
    mkResponse true (Fulfilled (Some (mkTokenData None (Some 7200)))) in
  let null : Response (option TokenData) :=
    mkResponse true (Fulfilled None) in
  ~ usableAt 900000 old
  /\ getAccessToken "app" "secret" old 900000 900100 down
     = mkTokenOutcome
         (Threw (mkError "Network error getting access_token: ECONNRESET"))
         old [tokenCall "app" "secret"]
  /\ getAccessToken "app" "secret" old 900000 900100 (Fulfilled res)
     = mkTokenOutcome
         (Threw (mkError
            ("Failed to get access_token: "
             ++ JSON_stringify (Some (mkTokenData None (Some 7200))))%string))
         old [tokenCall "app" "secret"]
  /\ getAccessToken "app" "secret" old 900000 900100 (Fulfilled null)
     = mkTokenOutcome (Threw (mkError (nullReadMessage "access_token")))
         old [tokenCall "app" "secret"].
Proof.
  intros old down res null.
  assert (U : ~ usableAt 900000 old).
  { intros (c & E & L). injection E as <-. simpl in L. lia. }
  split; [exact U|]. split; [|split].
  - exact (proj1 (getAccessToken_failure_keeps_cache
                    "app" "secret" old 900000 900100 down U) _ eq_refl).
  - exact (proj1 (proj2 (proj2 (getAccessToken_failure_keeps_cache
                    "app" "secret" old 900000 900100 (Fulfilled res) U)))
             res _ _ eq_refl eq_refl eq_refl eq_refl).
  - exact (proj1 (proj2 (proj2 (proj2 (getAccessToken_failure_keeps_cache
                    "app" "secret" old 900000 900100 (Fulfilled null) U))))
             null _ eq_refl eq_refl eq_refl).
Defined.

(** C6, as stated, fails: a body whose [access_token] is the empty string
    contains the field, yet line 42 takes it for missing; the call throws
    and the cache stays empty. *)
Lemma empty_access_token_counterexample :
  let data := mkTokenData (Some "") (Some 7200) in
  access_token data = Some ""
  /\ getAccessToken "app" "secret" None 0 1000
       (Fulfilled (mkResponse true (Fulfilled data)))
     = mkTokenOutcome
         (Threw (mkError
            ("Failed to get access_token: " ++ JSON_stringify data)%string))
         None [tokenCall "app" "secret"].
Proof. split; reflexivity. Qed.

Lemma getAccessToken_success_replaces_cache_witness :
  let old := Some (mkCachedToken "old" 1000000) in
  let data := mkTokenData (Some "fresh") None in
  ~ usableAt 900000 old
  /\ getAccessToken "app" "secret" old 900000 900100
       (Fulfilled (mkResponse true (Fulfilled data)))
     = mkTokenOutcome (Returned "fresh")
         (Some (mkCachedToken "fresh" 8100100))
         [tokenCall "app" "secret"].
Proof.
  intros old data.
  assert (U : ~ usableAt 900000 old).
  { intros (c & E & L). injection E as <-. simpl in L. lia. }
  split; [exact U|].
  exact (proj1 (getAccessToken_success_replaces_cache
                  "app" "secret" old 900000 900100
                  (mkResponse true (Fulfilled data)) data data "fresh"
                  U eq_refl eq_refl eq_refl ltac:(discriminate))).
Defined.

Lemma getAccessToken_fetches_when_stale_witness :
  let c := mkCachedToken "tok" 1000000 in
  let down : Settled (Response TokenData) :=
    Rejected (ThrownError "unreachable") in
  600000 < expiresAt c - 5 * 60 * 1000
  /\ (tokenResult (getAccessToken "app" "secret" (Some c) 600000 600000 down)
      = Returned "tok"
      /\ tokenFetches (getAccessToken "app" "secret" (Some c) 600000 600000 down)
         = []
      /\ cachedTokenAfter
           (getAccessToken "app" "secret" (Some c) 600000 600000 down)
         = Some c)
  /\ 700000 >= expiresAt c - 5 * 60 * 1000
  /\ tokenFetches (getAccessToken "app" "secret" (Some c) 700000 700000 down)
     = [tokenCall "app" "secret"].
Proof.
  intros c down.
  assert (L : 600000 < expiresAt c - 5 * 60 * 1000) by (simpl; lia).
  assert (G : 700000 >= expiresAt c - 5 * 60 * 1000) by (simpl; lia).
  split; [exact L|]. split; [|split; [exact G|]].
  - exact (proj1 (getAccessToken_fetches_when_stale
                    "app" "secret" (Some c) 600000 600000 down)
             c eq_refl L).
  - exact (proj1 (proj2 (getAccessToken_fetches_when_stale
                    "app" "secret" (Some c) 700000 700000 down))
             (or_intror (ex_intro _ c (conj eq_refl G)))).
Defined.

End CredentialSamples.

(** ** The request wrapper *)

Section RequestClaims.

Context {stringifyJson : Stringify Json}.
Context {T : Type} {stringifyT : Stringify T} {errorShapedT : ErrorShaped T}.


Lemma apiRequest_fetches accessToken method path body (net : Settled (Response T)) :
  apiFetches (apiRequest accessToken method path body net)
  = [apiCall accessToken method path body].
Proof.
  unfold apiRequest. destruct net as [res|err]; [|reflexivity].
  destruct (json res) as [data|err]; [|reflexivity].
  destruct (ok res); [reflexivity|]. simpl. now destruct (asErrorBody data).
Qed.

Lemma apiRequest_returns accessToken method path body
    (net : Settled (Response T)) data :
  apiResult (apiRequest accessToken method path body net) = Returned data
  <-> succeeded net data.
Proof.
  unfold apiRequest, succeeded. split.
  - destruct net as [res|err]; [|discriminate].
    destruct (json res) as [d|err] eqn:J; [|discriminate].
    destruct (ok res) eqn:O;
      [|simpl; destruct (asErrorBody d); discriminate].
    simpl. intros [= ->]. now exists res.
  - intros (res & -> & J & O). now rewrite J, O.
Qed.

Lemma typeError_no_kind property kind path detail :
  ~ hasKind kind path (typeError property) detail.
Proof. unfold hasKind. destruct kind; discriminate. Qed.

(** What [apiRequest] can throw: an error of one of the three kinds, or,
    for a failure status with a body that is [null], the [TypeError] of
    the read of [message] on line 129. *)
Lemma apiRequest_thrown accessToken method path body (net : Settled (Response T)) e :
  apiResult (apiRequest accessToken method path body net) = Threw e ->
  (exists kind detail, hasKind kind path e detail)
  \/ (e = typeError "message"
      /\ exists res data,
           net = Fulfilled res /\ json res = Fulfilled data
           /\ ok res = false /\ asErrorBody data = None).
Proof.
  unfold apiRequest. destruct net as [res|err].
  - destruct (json res) as [data|err] eqn:J.
    + destruct (ok res) eqn:O; simpl; [discriminate|].
      destruct (asErrorBody data) as [error|] eqn:A.
      * intros [= <-]. left. exists ApiError. eexists. reflexivity.
      * intros [= <-]. right. split; [reflexivity|]. now exists res, data.
    + simpl. intros [= <-]. left. exists DecodeError. eexists. reflexivity.
  - simpl. intros [= <-]. left. exists TransportError. eexists. reflexivity.
Qed.


End RequestClaims.

Section RequestSamples.
Import Sample.

Example apiRequest_sample_success :
  apiRequest "tok" "GET" "/gateway" None
    (Fulfilled (mkResponse true (Fulfilled (ErrorBody.mk None None))))
  = mkApiOutcome (Returned (ErrorBody.mk None None))
      [mkFetchCall "https://sandbox.api.sgroup.qq.com/gateway"
         (mkRequestInit "GET"
            [("Authorization", "QQBot tok");
             ("Content-Type", "application/json")]
            None)].
Proof. reflexivity. Qed.

(** C5.  The claim fails on a failure status with a body that parses to
    [null]: line 129 reads [message] on it and throws a [TypeError], which
    is none of the three kinds, where the same status with an object body
    gives the API error.  One fetch is issued in both cases. *)
Lemma apiRequest_null_body_type_error :
  let null : Settled (Response (option ErrorBody.t)) :=
    Fulfilled (mkResponse false (Fulfilled None)) in
  let object : Settled (Response (option ErrorBody.t)) :=
    Fulfilled (mkResponse false
                 (Fulfilled (Some (ErrorBody.mk (Some "invalid param") None)))) in
  let call := apiCall "tok" "POST" "/v2/users/u1/messages" None in
  apiRequest "tok" "POST" "/v2/users/u1/messages" None null
  = mkApiOutcome
      (Threw (mkError "Cannot read properties of null (reading 'message')"))
      [call]
  /\ (forall kind detail,
        ~ hasKind kind "/v2/users/u1/messages"
            (mkError "Cannot read properties of null (reading 'message')")
            detail)
  /\ apiRequest "tok" "POST" "/v2/users/u1/messages" None object
     = mkApiOutcome
         (Threw (mkError "API Error [/v2/users/u1/messages]: invalid param"))
         [call].
Proof.
  split; [reflexivity|]. split; [|reflexivity].
  intros kind detail. apply (typeError_no_kind "message").
Qed.


End RequestSamples.

(** ** The send operations *)

Section FacadeClaims.

Variable base : Z.

Context {stringifyJson : Stringify Json}.
Context {T : Type} {stringifyT : Stringify T} {errorShapedT : ErrorShaped T}.
Context {U : Type} {stringifyUpload : Stringify U}.
Context {errorShapedUpload : ErrorShaped U} {uploadShapedU : UploadShaped U}.

Lemma truthyString_true m : m <> "" -> truthyString m = true.
Proof.
  intros N. unfold truthyString. now destruct (String.eqb_spec m "").
Qed.

Lemma msgSeqFor_reply m tr :
  m <> "" -> msgSeqFor base (Some m) tr = getNextMsgSeq base m tr.
Proof. intros N. unfold msgSeqFor. now rewrite truthyString_true. Qed.

Lemma msgIdSpread_reply m : m <> "" -> msgIdSpread (Some m) = [("msg_id", JStr m)].
Proof. intros N. unfold msgIdSpread. now rewrite truthyString_true. Qed.

Lemma text_body_carries content msgSeq msgId spread :
  spread = match msgId with Some m => [("msg_id", JStr m)] | None => [] end ->
  carries
    (JObj ([("content", JStr content); ("msg_type", JNum 0);
            ("msg_seq", JNum msgSeq)] ++ spread))
    (Some msgSeq) msgId.
Proof. intros ->. destruct msgId; split; reflexivity. Qed.

Lemma media_body_carries fileInfo msgSeq content msgId spread :
  spread = match msgId with Some m => [("msg_id", JStr m)] | None => [] end ->
  carries
    (JObj ([("msg_type", JNum 7);
            ("media", JObj [("file_info", JStr fileInfo)]);
            ("msg_seq", JNum msgSeq)] ++ contentSpread content ++ spread))
    (Some msgSeq) msgId.
Proof.
  intros ->. unfold contentSpread.
  destruct content as [c|]; [destruct (truthyString c)|];
    destruct msgId; split; reflexivity.
Qed.

Ltac run_send :=
  cbv zeta;
  match goal with
  | |- context [getNextMsgSeq ?b ?m ?tr] =>
      destruct (getNextMsgSeq b m tr) as [seq tr'] eqn:Next
  | _ => idtac
  end;
  cbn [fst snd]; eexists; split; [reflexivity|].

(** Once the upload has returned a body that is not [null], an image send
    is that upload followed by the rich-media send. *)
Lemma image_after_upload
    (send : string -> ApiOutcome T * JsMap.t) (tr : JsMap.t)
    (up : ApiOutcome U) (ubody : U) (uploaded : UploadMediaResponse) :
  apiResult up = Returned ubody -> asUpload ubody = Some uploaded ->
  let r :=
    match apiResult up with
    | Threw e => (mkApiOutcome (Threw e) (apiFetches up), tr)
    | Returned uploadResult =>
        match asUpload uploadResult with
        | None =>
            (mkApiOutcome (Threw (typeError "file_info")) (apiFetches up), tr)
        | Some u =>
            let (sent, tracker') := send (file_info u) in
            (mkApiOutcome (apiResult sent) (apiFetches up ++ apiFetches sent),
             tracker')
        end
    end in
  apiResult (fst r) = apiResult (fst (send (file_info uploaded)))
  /\ snd r = snd (send (file_info uploaded))
  /\ apiFetches (fst r)
     = apiFetches up ++ apiFetches (fst (send (file_info uploaded))).
Proof.
  intros R A r. subst r. rewrite R, A.
  destruct (send (file_info uploaded)) as [sent tr']. repeat split.
Qed.

(** C7, amended.  [sendC2CMessage], [sendGroupMessage],
    [sendC2CMediaMessage] and [sendGroupMediaMessage], given a non-empty
    message identifier, take their sequence number from [getNextMsgSeq] at
    that identifier and put it, with the identifier, in the request body;
    with no identifier they put sequence number 1 and leave the table
    alone.  The image sends, once their upload has returned a body that is
    not [null], are that upload followed by the rich-media send, and so do
    the same in it.  The channel send and the two proactive sends put no
    sequence number in their body and never touch the table. *)
Theorem reply_sends_take_seq_from_generator
    (accessToken target content fileInfo : string) (text : option string)
    (tr : JsMap.t) (net : Settled (Response T)) :
  (forall m, m <> "" ->
     let msgSeq := fst (getNextMsgSeq base m tr) in
     let tr' := snd (getNextMsgSeq base m tr) in
     (exists obj,
        sendC2CMessage base accessToken target content (Some m) tr net
        = (apiRequest accessToken "POST"
             ("/v2/users/" ++ target ++ "/messages")%string (Some obj) net, tr')
        /\ carries obj (Some msgSeq) (Some m))
     /\ (exists obj,
           sendGroupMessage base accessToken target content (Some m) tr net
           = (apiRequest accessToken "POST"
                ("/v2/groups/" ++ target ++ "/messages")%string (Some obj) net,
              tr')
           /\ carries obj (Some msgSeq) (Some m))
     /\ (exists obj,
           sendC2CMediaMessage base accessToken target fileInfo (Some m) text
             tr net
           = (apiRequest accessToken "POST"
                ("/v2/users/" ++ target ++ "/messages")%string (Some obj) net,
              tr')
           /\ carries obj (Some msgSeq) (Some m))
     /\ (exists obj,
           sendGroupMediaMessage base accessToken target fileInfo (Some m) text
             tr net
           = (apiRequest accessToken "POST"
                ("/v2/groups/" ++ target ++ "/messages")%string (Some obj) net,
              tr')
           /\ carries obj (Some msgSeq) (Some m)))
  /\ ((exists obj,
         sendC2CMessage base accessToken target content None tr net
         = (apiRequest accessToken "POST"
              ("/v2/users/" ++ target ++ "/messages")%string (Some obj) net, tr)
         /\ carries obj (Some 1) None)
      /\ (exists obj,
            sendGroupMessage base accessToken target content None tr net
            = (apiRequest accessToken "POST"
                 ("/v2/groups/" ++ target ++ "/messages")%string (Some obj) net,
               tr)
            /\ carries obj (Some 1) None)
      /\ (exists obj,
            sendC2CMediaMessage base accessToken target fileInfo None text
              tr net
            = (apiRequest accessToken "POST"
                 ("/v2/users/" ++ target ++ "/messages")%string (Some obj) net,
               tr)
            /\ carries obj (Some 1) None)
      /\ (exists obj,
            sendGroupMediaMessage base accessToken target fileInfo None text
              tr net
            = (apiRequest accessToken "POST"
                 ("/v2/groups/" ++ target ++ "/messages")%string (Some obj) net,
               tr)
            /\ carries obj (Some 1) None))
  /\ (forall msgId,
        exists obj,
          sendChannelMessage accessToken target content msgId tr net
          = (apiRequest accessToken "POST"
               ("/channels/" ++ target ++ "/messages")%string (Some obj) net, tr)
          /\ field "msg_seq" obj = None)
  /\ ((exists obj,
         sendProactiveC2CMessage accessToken target content tr net
         = (apiRequest accessToken "POST"
              ("/v2/users/" ++ target ++ "/messages")%string (Some obj) net, tr)
         /\ carries obj None None)
      /\ (exists obj,
            sendProactiveGroupMessage accessToken target content tr net
            = (apiRequest accessToken "POST"
                 ("/v2/groups/" ++ target ++ "/messages")%string (Some obj) net,
               tr)
            /\ carries obj None None))
  /\ (forall (imageUrl : string) (msgId : option string)
             (netUpload : Settled (Response U)) (ubody : U)
             (uploaded : UploadMediaResponse),
        succeeded netUpload ubody -> asUpload ubody = Some uploaded ->
        let c2c := sendC2CImageMessage base accessToken target imageUrl msgId
                     text tr netUpload net in
        let c2cSend := sendC2CMediaMessage base accessToken target
                         (file_info uploaded) msgId text tr net in
        let group := sendGroupImageMessage base accessToken target imageUrl
                       msgId text tr netUpload net in
        let groupSend := sendGroupMediaMessage base accessToken target
                           (file_info uploaded) msgId text tr net in
        (apiResult (fst c2c) = apiResult (fst c2cSend)
         /\ snd c2c = snd c2cSend
         /\ apiFetches (fst c2c)
            = apiCall accessToken "POST"
                ("/v2/users/" ++ target ++ "/files")%string
                (Some (uploadBody IMAGE imageUrl false))
              :: apiFetches (fst c2cSend))
        /\ (apiResult (fst group) = apiResult (fst groupSend)
            /\ snd group = snd groupSend
            /\ apiFetches (fst group)
               = apiCall accessToken "POST"
                   ("/v2/groups/" ++ target ++ "/files")%string
                   (Some (uploadBody IMAGE imageUrl false))
                 :: apiFetches (fst groupSend))).
Proof.
  split; [|split; [|split; [|split]]].
  - intros m N.
    unfold sendC2CMessage, sendGroupMessage, sendC2CMediaMessage,
      sendGroupMediaMessage, c2cMessageBody, groupMessageBody, mediaMessageBody.
    rewrite (msgSeqFor_reply m tr N), (msgIdSpread_reply m N).
    repeat split; run_send;
      first [now apply text_body_carries | now apply media_body_carries].
  - unfold sendC2CMessage, sendGroupMessage, sendC2CMediaMessage,
      sendGroupMediaMessage, c2cMessageBody, groupMessageBody, mediaMessageBody.
    cbn [msgSeqFor msgIdSpread].
    repeat split; run_send;
      first [now apply text_body_carries | now apply media_body_carries].
  - intros msgId. unfold sendChannelMessage, channelMessageBody.
    eexists. split; [reflexivity|].
    unfold msgIdSpread.
    destruct msgId as [m|]; [destruct (truthyString m)|]; reflexivity.
  - unfold sendProactiveC2CMessage, sendProactiveGroupMessage,
      proactiveMessageBody.
    split; (eexists; split; [reflexivity | split; reflexivity]).
  - intros imageUrl msgId netUpload ubody uploaded S A.
    unfold sendC2CImageMessage, sendGroupImageMessage, uploadC2CMedia,
      uploadGroupMedia.
    split.
    + pose proof (proj2 (apiRequest_returns accessToken "POST"
                 ("/v2/users/" ++ target ++ "/files")%string
                 (Some (uploadBody IMAGE imageUrl false)) netUpload ubody) S)
        as R.
      destruct (image_after_upload
               (fun fileInfo =>
                  sendC2CMediaMessage base accessToken target fileInfo msgId
                    text tr net)
               tr _ ubody uploaded R A) as (E1 & E2 & E3).
      split; [exact E1|]. split; [exact E2|].
      etransitivity; [exact E3|]. now rewrite apiRequest_fetches.
    + pose proof (proj2 (apiRequest_returns accessToken "POST"
                 ("/v2/groups/" ++ target ++ "/files")%string
                 (Some (uploadBody IMAGE imageUrl false)) netUpload ubody) S)
        as R.
      destruct (image_after_upload
               (fun fileInfo =>
                  sendGroupMediaMessage base accessToken target fileInfo msgId
                    text tr net)
               tr _ ubody uploaded R A) as (E1 & E2 & E3).
      split; [exact E1|]. split; [exact E2|].
      etransitivity; [exact E3|]. now rewrite apiRequest_fetches.
Qed.

End FacadeClaims.

Section MsgIdClaims.

Variable base : Z.

Context {stringifyJson : Stringify Json}.
Context {T : Type} {stringifyT : Stringify T} {errorShapedT : ErrorShaped T}.
Context {U : Type} {stringifyUpload : Stringify U}.
Context {errorShapedUpload : ErrorShaped U} {uploadShapedU : UploadShaped U}.

(** C10, amended.  For each of the seven operations that take an optional
    message identifier, the empty string gives the very outcome and table
    that no identifier gives; the table is left as it was, the body has no
    [msg_id], and it has [msg_seq] 1 in the C2C and group operations, text
    and rich media, while the body of the channel operation has no
    [msg_seq]. *)
Theorem empty_msgId_is_no_msgId
    (accessToken target content fileInfo imageUrl : string)
    (text : option string) (tr : JsMap.t) (net : Settled (Response T))
    (netUpload : Settled (Response U)) :
  (sendC2CMessage base accessToken target content (Some "") tr net
   = sendC2CMessage base accessToken target content None tr net
   /\ sendGroupMessage base accessToken target content (Some "") tr net
      = sendGroupMessage base accessToken target content None tr net
   /\ sendChannelMessage accessToken target content (Some "") tr net
      = sendChannelMessage accessToken target content None tr net
   /\ sendC2CMediaMessage base accessToken target fileInfo (Some "") text tr net
      = sendC2CMediaMessage base accessToken target fileInfo None text tr net
   /\ sendGroupMediaMessage base accessToken target fileInfo (Some "") text
        tr net
      = sendGroupMediaMessage base accessToken target fileInfo None text tr net
   /\ sendC2CImageMessage base accessToken target imageUrl (Some "") text tr
        netUpload net
      = sendC2CImageMessage base accessToken target imageUrl None text tr
          netUpload net
   /\ sendGroupImageMessage base accessToken target imageUrl (Some "") text tr
        netUpload net
      = sendGroupImageMessage base accessToken target imageUrl None text tr
          netUpload net)
  /\ ((exists obj,
         sendC2CMessage base accessToken target content (Some "") tr net
         = (apiRequest accessToken "POST"
              ("/v2/users/" ++ target ++ "/messages")%string (Some obj) net, tr)
         /\ carries obj (Some 1) None)
      /\ (exists obj,
            sendGroupMessage base accessToken target content (Some "") tr net
            = (apiRequest accessToken "POST"
                 ("/v2/groups/" ++ target ++ "/messages")%string (Some obj) net,
               tr)
            /\ carries obj (Some 1) None)
      /\ (exists obj,
            sendC2CMediaMessage base accessToken target fileInfo (Some "") text
              tr net
            = (apiRequest accessToken "POST"
                 ("/v2/users/" ++ target ++ "/messages")%string (Some obj) net,
               tr)
            /\ carries obj (Some 1) None)
      /\ (exists obj,
            sendGroupMediaMessage base accessToken target fileInfo (Some "")
              text tr net
            = (apiRequest accessToken "POST"
                 ("/v2/groups/" ++ target ++ "/messages")%string (Some obj) net,
               tr)
            /\ carries obj (Some 1) None)
      /\ (exists obj,
            sendChannelMessage accessToken target content (Some "") tr net
            = (apiRequest accessToken "POST"
                 ("/channels/" ++ target ++ "/messages")%string (Some obj) net,
               tr)
            /\ carries obj None None)).
Proof.
  split.
  - repeat split; reflexivity.
  - unfold sendC2CMessage, sendGroupMessage, sendC2CMediaMessage,
      sendGroupMediaMessage, sendChannelMessage, c2cMessageBody,
      groupMessageBody, mediaMessageBody, channelMessageBody.
    cbn [msgSeqFor msgIdSpread truthyString String.eqb negb].
    repeat split; eexists; (split; [reflexivity|]);
      first [ now apply text_body_carries
            | now apply media_body_carries
            | split; reflexivity ].
Qed.

End MsgIdClaims.

Section FacadeSamples.
Import Sample.

(** C7, as stated, fails for the channel operation: given the identifier
    "m1" it sends a body with no sequence number, and the table, where a
    call of [getNextMsgSeq] would have left an entry, is still empty.  It
    fails for the proactive sends too: they are the C2C and group sends
    made without an identifier, and their body has no sequence number
    either, not the sequence number 1. *)
Lemma channel_reply_counterexample :
  let net : Settled (Response ErrorBody.t) := Rejected (ThrownError "down") in
  let obj := JObj [("content", JStr "hi"); ("msg_id", JStr "m1")] in
  let proactive := JObj [("content", JStr "hi"); ("msg_type", JNum 0)] in
  (sendChannelMessage "tok" "c1" "hi" (Some "m1") JsMap.empty net
   = (apiRequest "tok" "POST" "/channels/c1/messages" (Some obj) net,
      JsMap.empty)
   /\ field "msg_seq" obj = None
   /\ field "msg_seq" obj
      <> Some (JNum (fst (getNextMsgSeq base "m1" JsMap.empty)))
   /\ snd (getNextMsgSeq base "m1" JsMap.empty) = [("m1", 1)])
  /\ (sendProactiveC2CMessage "tok" "u1" "hi" JsMap.empty net
      = (apiRequest "tok" "POST" "/v2/users/u1/messages" (Some proactive) net,
         JsMap.empty)
      /\ sendProactiveGroupMessage "tok" "g1" "hi" JsMap.empty net
         = (apiRequest "tok" "POST" "/v2/groups/g1/messages" (Some proactive)
              net, JsMap.empty)
      /\ field "msg_seq" proactive = None
      /\ field "msg_seq" proactive <> Some (JNum 1)).
Proof. repeat split; discriminate. Qed.

(** C10, as stated, fails for the channel operation, which takes an
    optional identifier too: given the empty string it sends a body with
    no [msg_seq] at all, not [msg_seq] 1. *)
Lemma channel_empty_msgId_counterexample :
  let net : Settled (Response ErrorBody.t) := Rejected (ThrownError "down") in
  let obj := JObj [("content", JStr "hi")] in
  sendChannelMessage "tok" "c1" "hi" (Some "") JsMap.empty net
  = (apiRequest "tok" "POST" "/channels/c1/messages" (Some obj) net,
     JsMap.empty)
  /\ field "msg_seq" obj = None
  /\ ~ carries obj (Some 1) None.
Proof.
  repeat split. intros [H _]. discriminate H.
Qed.

(** Two replies to "m1" in a row: the sequence numbers are [base + 1] and
    [base + 2]. *)
Example two_replies_sample :
  let net : Settled (Response ErrorBody.t) :=
    Fulfilled (mkResponse true (Fulfilled (ErrorBody.mk None None))) in
  let first := sendGroupMessage base "tok" "g1" "a" (Some "m1") JsMap.empty net in
  let second := sendGroupMessage base "tok" "g1" "b" (Some "m1") (snd first) net in
  map (fun c => body (init c)) (apiFetches (fst first) ++ apiFetches (fst second))
  = [Some (JSON_stringify
             (JObj [("content", JStr "a"); ("msg_type", JNum 0);
                    ("msg_seq", JNum (base + 1)); ("msg_id", JStr "m1")]));
     Some (JSON_stringify
             (JObj [("content", JStr "b"); ("msg_type", JNum 0);
                    ("msg_seq", JNum (base + 2)); ("msg_id", JStr "m1")]))]
  /\ snd second = [("m1", 2)].
Proof. split; reflexivity. Qed.

Lemma reply_sends_take_seq_from_generator_witness :
  let net : Settled (Response ErrorBody.t) :=
    Fulfilled (mkResponse true (Fulfilled (ErrorBody.mk None None))) in
  let tr : JsMap.t := [("m1", 2)] in
  "m1" <> ""
  /\ exists obj,
       sendC2CMessage base "tok" "u1" "hi" (Some "m1") tr net
       = (apiRequest "tok" "POST" "/v2/users/u1/messages" (Some obj) net,
          [("m1", 3)])
       /\ carries obj (Some (base + 3)) (Some "m1").
Proof.
  intros net tr.
  assert (N : "m1" <> "") by discriminate.
  split; [exact N|].
  exact (proj1 (proj1 (reply_sends_take_seq_from_generator
                         base "tok" "u1" "hi" "info" None tr net) "m1" N)).
Defined.

End FacadeSamples.

(** * Further properties of the code *)

(** ** The sequence generator, call by call *)

Section SequenceSteps.
Import JsMap JsMapFacts.

Variable base : Z.

(** On a table within the capacity a call goes one of three ways. *)
Lemma seqStep_cases k m :
  wf m -> size m <= 1000 ->
  (exists v, get k m = Some v
     /\ seqStep base k m = mkSeqStep (base + (v + 1)) false (set k (v + 1) m))
  \/ (get k m = None /\ size m < 1000
      /\ seqStep base k m = mkSeqStep (base + 1) false (m ++ [(k, 1)]))
  \/ (get k m = None /\ size m = 1000
      /\ seqStep base k m
         = mkSeqStep (base + 1) true (skipn 500 m ++ [(k, 1)])).
Proof.
  intros W S. destruct (get k m) as [v|] eqn:G.
  - left. exists v. split; [reflexivity|]. now apply seqStep_present.
  - right. destruct (Z.eq_dec (size m) 1000) as [F|F].
    + right. repeat split; try assumption.
      rewrite (seqStep_fresh_full base k m W G) by lia.
      f_equal. rewrite skipn_app. unfold size in F.
      replace (500 - List.length m)%nat with 0%nat by lia.
      now rewrite skipn_O.
    + left. repeat split; try assumption; [lia|].
      apply seqStep_fresh_room; [exact G | lia].
Qed.

Lemma seqStep_keeps k m :
  wf m -> size m <= 1000 ->
  wf (tracker (seqStep base k m))
  /\ size (tracker (seqStep base k m)) <= 1000
  /\ get k (tracker (seqStep base k m))
     = Some (issued (seqStep base k m) - base).
Proof.
  intros W S. split; [now apply seqStep_wf|].
  destruct (seqStep_cases k m W S)
    as [(v & G & ->) | [(G & L & ->) | (G & L & ->)]]; cbn [tracker issued].
  - unfold size in *. rewrite (length_set_present _ _ _ _ G), get_set_same.
    split; [lia | f_equal; lia].
  - unfold size in *. rewrite length_app. cbn [List.length].
    rewrite get_app_notin by now apply get_None_notin.
    simpl. rewrite String.eqb_refl. split; [lia | f_equal; lia].
  - unfold size in *. rewrite length_app, length_skipn. cbn [List.length].
    rewrite get_app_notin.
    + simpl. rewrite String.eqb_refl. split; [lia | f_equal; lia].
    + intros I. apply (get_None_notin _ _ G).
      rewrite <- (firstn_skipn 500 m), keys_app. apply in_or_app. now right.
Qed.

Lemma run_keeps ks : forall m,
  wf m -> size m <= 1000 ->
  Forall (fun s => wf (tracker s) /\ size (tracker s) <= 1000)
         (runSeq base ks m)
  /\ wf (finalTracker base ks m)
  /\ size (finalTracker base ks m) <= 1000.
Proof.
  induction ks as [|k ks IH]; intros m W S.
  - simpl. auto.
  - destruct (seqStep_keeps k m W S) as (W1 & S1 & _).
    destruct (IH _ W1 S1) as (F & Wf & Sf).
    change (runSeq base (k :: ks) m)
      with (seqStep base k m :: runSeq base ks (tracker (seqStep base k m))).
    change (finalTracker base (k :: ks) m)
      with (finalTracker base ks (tracker (seqStep base k m))).
    repeat split; auto.
Qed.

Lemma get_skipn_wf n k m :
  wf m -> get k (skipn n m) = get k m \/ get k (skipn n m) = None.
Proof.
  intros W.
  destruct (in_dec string_dec k (keys (firstn n m))) as [I|I].
  - right. apply get_notin. intros I'.
    unfold wf in W. rewrite <- (firstn_skipn n m), keys_app in W.
    apply NoDup_app_parts in W. destruct W as (_ & _ & D). now apply (D k).
  - left. rewrite <- (firstn_skipn n m) at 2. now rewrite get_app_notin.
Qed.

(** X1.  From a table with distinct keys and at most 1000 of them, in
    particular from the empty table, every call of any run leaves a table
    with distinct keys and at most 1000 of them. *)
Theorem run_stays_within_capacity (msgIds : list string) (m : JsMap.t) :
  wf m -> size m <= 1000 ->
  Forall (fun s => wf (tracker s) /\ size (tracker s) <= 1000)
         (runSeq base msgIds m)
  /\ size (finalTracker base msgIds m) <= 1000.
Proof.
  intros W S. destruct (run_keeps msgIds m W S) as (F & _ & L). auto.
Qed.

(** X2.  On a table within the capacity, a second call with the same key
    right after the first returns exactly one more than the first. *)
Theorem successive_calls_differ_by_one (msgId : string) (m : JsMap.t) :
  wf m -> size m <= 1000 ->
  let first := getNextMsgSeq base msgId m in
  fst (getNextMsgSeq base msgId (snd first)) = fst first + 1.
Proof.
  intros W S first. subst first. unfold getNextMsgSeq. cbn [fst snd].
  destruct (seqStep_keeps msgId m W S) as (W1 & S1 & G1).
  rewrite (seqStep_present base msgId _ _ G1 S1). cbn [issued]. lia.
Qed.

(** X3.  A call never changes the counter of another key: it leaves it as
    it was, or, when the call sweeps, removes it. *)
Theorem other_keys_kept_or_evicted (msgId other : string) (m : JsMap.t) :
  wf m -> other <> msgId ->
  let after := snd (getNextMsgSeq base msgId m) in
  (swept (seqStep base msgId m) = false -> get other after = get other m)
  /\ (get other after = get other m \/ get other after = None).
Proof.
  intros W N after. subst after. unfold getNextMsgSeq, seqStep.
  cbn [snd tracker swept].
  set (next := match get msgId m with Some v => v | None => 0 end + 1).
  assert (G : get other (set msgId next m) = get other m)
    by (apply get_set_other; congruence).
  destruct (1000 <? size (set msgId next m)).
  - split; [discriminate|].
    rewrite evictOldest_skipn by now apply wf_set.
    rewrite <- G. apply get_skipn_wf. now apply wf_set.
  - split; [intros _; exact G | left; exact G].
Qed.

(** X4.  On a table within the capacity a call sweeps exactly when its key
    is new and the table holds 1000 keys; the table left is then the 500
    newest of the old entries followed by the new key, 501 keys in all. *)
Theorem sweep_iff_new_key_on_full_table (msgId : string) (m : JsMap.t) :
  wf m -> size m <= 1000 ->
  (swept (seqStep base msgId m) = true
   <-> get msgId m = None /\ size m = 1000)
  /\ (swept (seqStep base msgId m) = true ->
      snd (getNextMsgSeq base msgId m) = skipn 500 m ++ [(msgId, 1)]
      /\ size (snd (getNextMsgSeq base msgId m)) = 501).
Proof.
  intros W S. unfold getNextMsgSeq. cbn [snd].
  destruct (seqStep_cases msgId m W S)
    as [(v & G & ->) | [(G & L & ->) | (G & L & ->)]]; cbn [swept tracker].
  - split; [split; [discriminate | intros [E _]; congruence] | discriminate].
  - split; [split; [discriminate | intros [_ E]; lia] | discriminate].
  - split; [tauto|]. intros _. split; [reflexivity|].
    unfold size in *. rewrite length_app, length_skipn. cbn [List.length]. lia.
Qed.

(** X5.  Eviction goes by first insertion, not by last use: a call with a
    key already in the table (within the capacity) sweeps nothing and
    leaves the keys in the order they had. *)
Theorem reuse_keeps_insertion_order (msgId : string) (v : Z) (m : JsMap.t) :
  get msgId m = Some v -> size m <= 1000 ->
  keys (snd (getNextMsgSeq base msgId m)) = keys m
  /\ swept (seqStep base msgId m) = false
  /\ fst (getNextMsgSeq base msgId m) = base + v + 1.
Proof.
  intros G S. unfold getNextMsgSeq. cbn [fst snd].
  rewrite (seqStep_present base msgId v m G S). cbn [tracker swept issued].
  repeat split; [eapply keys_set_present; eauto | lia].
Qed.

End SequenceSteps.

Section SequenceBounds.
Import JsMap JsMapFacts.

Variable base : Z.

Lemma In_set k v m x : In x (set k v m) -> x = (k, v) \/ In x m.
Proof.
  induction m as [|[k' v'] rest IH]; simpl.
  - intros [<- | []]. now left.
  - destruct (String.eqb_spec k' k) as [->|N]; simpl.
    + intros [<- | I]; auto.
    + intros [<- | I]; auto. destruct (IH I); auto.
Qed.

Lemma In_delete k m x : In x (delete k m) -> In x m.
Proof.
  induction m as [|[k' v'] rest IH]; simpl; [tauto|].
  destruct (String.eqb k' k); simpl; [auto|].
  intros [<- | I]; auto.
Qed.

Lemma In_evictOldest m x : In x (evictOldest m) -> In x m.
Proof.
  unfold evictOldest. generalize (keys m) as ks. generalize (seq 0 500) as idx.
  intros idx. revert m. induction idx as [|i idx IH]; intros m ks; simpl; auto.
  intros I. apply IH in I. destruct (nth_error ks i); [|exact I].
  eapply In_delete; eauto.
Qed.

Lemma get_In_pair k v m : get k m = Some v -> In (k, v) m.
Proof.
  induction m as [|[k' v'] rest IH]; simpl; [discriminate|].
  destruct (String.eqb_spec k' k) as [->|N].
  - intros [= ->]. now left.
  - intros G. right. auto.
Qed.

Lemma occurrences_snoc_le k k' seen :
  (occurrences k' seen <= occurrences k' (seen ++ [k]))%nat.
Proof. rewrite occurrences_snoc. lia. Qed.

Lemma seqStep_withinCalls seen m k :
  withinCalls seen m ->
  withinCalls (seen ++ [k]) (tracker (seqStep base k m))
  /\ base + 1 <= issued (seqStep base k m)
     <= base + Z.of_nat (occurrences k (seen ++ [k])).
Proof.
  intros B. unfold seqStep. cbn [tracker issued].
  set (current := match get k m with Some v => v | None => 0 end).
  assert (C : 0 <= current <= Z.of_nat (occurrences k seen)).
  { subst current. destruct (get k m) as [v|] eqn:G; [|lia].
    apply get_In_pair, B in G. lia. }
  assert (O : occurrences k (seen ++ [k]) = S (occurrences k seen))
    by (rewrite occurrences_snoc, String.eqb_refl; lia).
  assert (B' : withinCalls (seen ++ [k]) (set k (current + 1) m)).
  { intros k' v' I. apply In_set in I. destruct I as [[= -> ->] | I].
    - rewrite O. lia.
    - apply B in I. pose proof (occurrences_snoc_le k k' seen). lia. }
  split; [|rewrite O; lia].
  destruct (1000 <? size (set k (current + 1) m)); [|exact B'].
  intros k' v' I. apply B'.
  exact (In_evictOldest (set k (current + 1) m) (k', v') I).
Qed.

Lemma runSeq_withinCalls rest : forall seen m i k,
  withinCalls seen m -> nth_error rest i = Some k ->
  exists v,
    nth_error (map issued (runSeq base rest m)) i = Some v
    /\ base + 1 <= v
       <= base + Z.of_nat (occurrences k (seen ++ firstn (S i) rest)).
Proof.
  induction rest as [|k0 rest IH]; intros seen m i k B E.
  - destruct i; discriminate.
  - destruct (seqStep_withinCalls seen m k0 B) as [B' R].
    change (runSeq base (k0 :: rest) m)
      with (seqStep base k0 m :: runSeq base rest (tracker (seqStep base k0 m))).
    destruct i as [|i].
    + injection E as <-. eexists. split; [reflexivity|].
      rewrite firstn_cons, firstn_O. exact R.
    + cbn [nth_error map] in *. rewrite firstn_cons.
      replace (seen ++ k0 :: firstn (S i) rest)
        with ((seen ++ [k0]) ++ firstn (S i) rest)
        by (rewrite <- app_assoc; reflexivity).
      now apply IH.
Qed.

(** X6.  In any run from the empty table, whatever the number of keys and
    sweeps, the value a call returns lies between [base + 1] and the base
    plus the number of calls made so far with its key. *)
Theorem issued_between_one_and_calls (msgIds : list string) (i : nat)
    (k : string) :
  nth_error msgIds i = Some k ->
  exists v,
    nth_error (map issued (runSeq base msgIds JsMap.empty)) i = Some v
    /\ base + 1 <= v
       <= base + Z.of_nat (occurrences k (firstn (S i) msgIds)).
Proof.
  intros E. apply (runSeq_withinCalls msgIds [] empty i k); [|exact E].
  intros k' v' [].
Qed.

End SequenceBounds.

(** X7.  For a start time that is not negative, the base lies in
    [0, 10^8), is the same for all start times within one second, and
    comes back after 10^8 seconds. *)
Theorem seqBaseTimeAt_wraps (startMs : Z) :
  0 <= startMs ->
  0 <= seqBaseTimeAt startMs < 100000000
  /\ (forall d, 0 <= d -> startMs mod 1000 + d < 1000 ->
        seqBaseTimeAt (startMs + d) = seqBaseTimeAt startMs)
  /\ seqBaseTimeAt (startMs + 100000000 * 1000) = seqBaseTimeAt startMs.
Proof.
  intros P. unfold seqBaseTimeAt. split; [apply Z.mod_pos_bound; lia|]. split.
  - intros d D L. f_equal.
    rewrite (Z.div_mod startMs 1000) at 1 by lia.
    rewrite <- Z.add_assoc, Z.mul_comm, Z.div_add_l by lia.
    rewrite (Z.div_small (startMs mod 1000 + d)); [lia|].
    pose proof (Z.mod_pos_bound startMs 1000). lia.
  - rewrite Z.div_add by lia. rewrite Z.add_mod by lia.
    rewrite Z.mod_same by lia. rewrite Z.add_0_r. apply Z.mod_mod. lia.
Qed.

Section SequenceStepSamples.
Import Sample JsMap JsMapFacts.

Lemma run_stays_within_capacity_witness :
  let msgIds := keysFrom 0 1200 ++ keysFrom 0 700 in
  wf empty /\ size empty <= 1000
  /\ size (finalTracker base msgIds empty) <= 1000.
Proof.
  intros msgIds.
  assert (S : size empty <= 1000) by (vm_compute; discriminate).
  split; [exact wf_empty|]. split; [exact S|].
  exact (proj2 (run_stays_within_capacity base msgIds empty wf_empty S)).
Defined.

Lemma successive_calls_differ_by_one_witness :
  let m : JsMap.t := [("m1", 3); ("m2", 1)] in
  wf m /\ size m <= 1000
  /\ fst (getNextMsgSeq base "m2" (snd (getNextMsgSeq base "m2" m)))
     = fst (getNextMsgSeq base "m2" m) + 1.
Proof.
  intros m.
  assert (W : wf m) by (repeat constructor; simpl; intuition discriminate).
  assert (S : size m <= 1000) by (vm_compute; discriminate).
  split; [exact W|]. split; [exact S|].
  exact (successive_calls_differ_by_one base "m2" m W S).
Defined.

Lemma other_keys_kept_or_evicted_witness :
  let m : JsMap.t := [("m1", 3); ("m2", 1)] in
  wf m /\ "m1" <> "m2"
  /\ (get "m1" (snd (getNextMsgSeq base "m2" m)) = get "m1" m
      \/ get "m1" (snd (getNextMsgSeq base "m2" m)) = None).
Proof.
  intros m.
  assert (W : wf m) by (repeat constructor; simpl; intuition discriminate).
  assert (N : "m1" <> "m2") by discriminate.
  split; [exact W|]. split; [exact N|].
  exact (proj2 (other_keys_kept_or_evicted base "m2" "m1" m W N)).
Defined.

Lemma sweep_iff_new_key_on_full_table_witness :
  let m : JsMap.t := map fresh1 (keysFrom 0 1000) in
  wf m /\ size m <= 1000
  /\ (swept (seqStep base "1000" m) = true
      <-> get "1000" m = None /\ size m = 1000).
Proof.
  intros m.
  assert (W : wf m).
  { unfold wf, m. rewrite keys_fresh1. apply keysFrom_NoDup. }
  assert (S : size m <= 1000).
  { unfold size, m. rewrite length_map, keysFrom_length. lia. }
  split; [exact W|]. split; [exact S|].
  exact (proj1 (sweep_iff_new_key_on_full_table base "1000" m W S)).
Defined.

Lemma reuse_keeps_insertion_order_witness :
  let m : JsMap.t := [("m1", 3); ("m2", 1)] in
  get "m1" m = Some 3 /\ size m <= 1000
  /\ keys (snd (getNextMsgSeq base "m1" m)) = ["m1"; "m2"]
  /\ swept (seqStep base "m1" m) = false
  /\ fst (getNextMsgSeq base "m1" m) = base + 3 + 1.
Proof.
  intros m.
  assert (S : size m <= 1000) by (vm_compute; discriminate).
  split; [reflexivity|]. split; [exact S|].
  exact (reuse_keeps_insertion_order base "m1" 3 m eq_refl S).
Defined.

Lemma issued_between_one_and_calls_witness :
  let msgIds := ["a"; "b"; "a"; "a"] in
  nth_error msgIds 3 = Some "a"
  /\ exists v,
       nth_error (map issued (runSeq base msgIds empty)) 3 = Some v
       /\ base + 1 <= v
          <= base + Z.of_nat (occurrences "a" (firstn 4 msgIds)).
Proof.
  intros msgIds. split; [reflexivity|].
  exact (issued_between_one_and_calls base msgIds 3 "a" eq_refl).
Defined.

Lemma seqBaseTimeAt_wraps_witness :
  0 <= 1762150000123
  /\ 0 <= seqBaseTimeAt 1762150000123 < 100000000
  /\ seqBaseTimeAt (1762150000123 + 100000000 * 1000)
     = seqBaseTimeAt 1762150000123.
Proof.
  assert (P : 0 <= 1762150000123) by lia.
  split; [exact P|].
  destruct (seqBaseTimeAt_wraps 1762150000123 P) as (R & _ & W).
  split; [exact R | exact W].
Defined.

End SequenceStepSamples.

(** ** The credential cache over several calls *)

Section CredentialSteps.

Context {stringifyJson : Stringify Json}.
Context {B : Type} {stringifyB : Stringify B} {tokenShapedB : TokenShaped B}.

Lemma truthyString_iff s : truthyString s = true <-> s <> "".
Proof.
  unfold truthyString. destruct (String.eqb_spec s ""); simpl; split;
    congruence.
Qed.

Lemma fetch_success appId clientSecret cachedToken nowCheck nowStore
    (res : Response B) body data tok :
  ~ usableAt nowCheck cachedToken ->
  json res = Fulfilled body -> asTokenData body = Some data ->
  access_token data = Some tok -> tok <> "" ->
  getAccessToken appId clientSecret cachedToken nowCheck nowStore (Fulfilled res)
  = mkTokenOutcome (Returned tok)
      (Some (mkCachedToken tok
               (nowStore
                + match expires_in data with Some s => s | None => 7200 end
                  * 1000)))
      [tokenCall appId clientSecret].
Proof.
  intros U J D A N. rewrite getAccessToken_miss by exact U.
  unfold fetchAccessToken. rewrite J, D, A.
  apply truthyString_iff in N. now rewrite N.
Qed.

Lemma fetch_threw_keeps appId clientSecret cachedToken now
    (net : Settled (Response B)) e :
  tokenResult (fetchAccessToken appId clientSecret cachedToken now net)
  = Threw e ->
  cachedTokenAfter (fetchAccessToken appId clientSecret cachedToken now net)
  = cachedToken.
Proof.
  unfold fetchAccessToken. destruct net as [res|err]; [|reflexivity].
  destruct (json res) as [data|err]; [|reflexivity].
  destruct (asTokenData data) as [fields|]; [|reflexivity].
  destruct (access_token fields) as [tok|]; [|reflexivity].
  destruct (truthyString tok); [discriminate | reflexivity].
Qed.

(** X8.  A body whose [access_token] is the empty string is handled as a
    body without one: the call throws, with the body in the message, and
    the cache stays as it was. *)
Theorem empty_access_token_is_missing
    (appId clientSecret : string) (cachedToken : option CachedToken)
    (nowCheck nowStore : Z) (res : Response B) (body : B)
    (data : TokenData) :
  ~ usableAt nowCheck cachedToken ->
  json res = Fulfilled body ->
  asTokenData body = Some data ->
  access_token data = Some "" ->
  getAccessToken appId clientSecret cachedToken nowCheck nowStore (Fulfilled res)
  = mkTokenOutcome
      (Threw (mkError
         ("Failed to get access_token: " ++ JSON_stringify body)%string))
      cachedToken [tokenCall appId clientSecret].
Proof.
  intros U J D A. rewrite getAccessToken_miss by exact U.
  unfold fetchAccessToken. rewrite J, D, A. reflexivity.
Qed.

(** X9.  The cache never comes to hold an empty token: if the cached
    token, when there is one, is not empty before a call, then neither is
    the one cached after it, nor the token the call returns. *)
Theorem cache_never_holds_empty_token
    (appId clientSecret : string) (cachedToken : option CachedToken)
    (nowCheck nowStore : Z) (net : Settled (Response B)) :
  (forall c, cachedToken = Some c -> token c <> "") ->
  let out :=
    getAccessToken appId clientSecret cachedToken nowCheck nowStore net in
  (forall c, cachedTokenAfter out = Some c -> token c <> "")
  /\ (forall t, tokenResult out = Returned t -> t <> "").
Proof.
  intros H out. subst out. unfold getAccessToken.
  assert (F : forall n,
    (forall c, cachedTokenAfter
                 (fetchAccessToken appId clientSecret cachedToken n net)
               = Some c -> token c <> "")
    /\ (forall t, tokenResult
                    (fetchAccessToken appId clientSecret cachedToken n net)
                  = Returned t -> t <> "")).
  { intros n. unfold fetchAccessToken.
    destruct net as [res|err]; [|split; [exact H | discriminate]].
    destruct (json res) as [data|err]; [|split; [exact H | discriminate]].
    destruct (asTokenData data) as [fields|];
      [|split; [exact H | discriminate]].
    destruct (access_token fields) as [tok|];
      [|split; [exact H | discriminate]].
    destruct (truthyString tok) eqn:E; [|split; [exact H | discriminate]].
    apply truthyString_iff in E. simpl.
    split; [intros c [= <-] | intros t [= <-]]; exact E. }
  destruct cachedToken as [c|]; [|apply F].
  destruct (nowCheck <? expiresAt c - 5 * 60 * 1000); [|apply F].
  simpl. split; [exact H | intros t [= <-]; now apply H].
Qed.

(** X10.  A token whose lifetime is 300 seconds or less is never served
    from the cache: the call after the one that fetched it, made when the
    clock has not gone back, fetches again. *)
Theorem short_lived_token_is_refetched
    (appId clientSecret : string) (cachedToken : option CachedToken)
    (nowCheck nowStore : Z) (res : Response B) (body : B) (data : TokenData)
    (tok : string) (lifetime : Z)
    (nowCheck2 nowStore2 : Z) (net2 : Settled (Response B)) :
  ~ usableAt nowCheck cachedToken ->
  json res = Fulfilled body ->
  asTokenData body = Some data ->
  access_token data = Some tok -> tok <> "" ->
  expires_in data = Some lifetime -> lifetime <= 300 ->
  nowStore <= nowCheck2 ->
  let out :=
    getAccessToken appId clientSecret cachedToken nowCheck nowStore
      (Fulfilled res) in
  tokenResult out = Returned tok
  /\ tokenFetches
       (getAccessToken appId clientSecret (cachedTokenAfter out)
          nowCheck2 nowStore2 net2)
     = [tokenCall appId clientSecret].
Proof.
  intros U J D A N E L M out. subst out.
  rewrite (fetch_success _ _ _ _ _ _ _ _ _ U J D A N), E.
  cbn [tokenResult cachedTokenAfter]. split; [reflexivity|].
  rewrite getAccessToken_miss; [apply fetchAccessToken_once|].
  intros (c & [= <-] & Lt). cbn [expiresAt] in Lt. lia.
Qed.

(** X11.  The cache is not keyed by the credentials: inside the validity
    window of a token fetched for one application, a call made with any
    other [appId] and [clientSecret] returns that token and fetches
    nothing. *)
Theorem cached_token_served_to_any_credentials
    (appId clientSecret appId' clientSecret' : string)
    (cachedToken : option CachedToken)
    (nowCheck nowStore : Z) (res : Response B) (body : B) (data : TokenData)
    (tok : string)
    (nowCheck2 nowStore2 : Z) (net2 : Settled (Response B)) :
  ~ usableAt nowCheck cachedToken ->
  json res = Fulfilled body ->
  asTokenData body = Some data ->
  access_token data = Some tok -> tok <> "" ->
  nowCheck2
  < nowStore + match expires_in data with Some s => s | None => 7200 end * 1000
    - 5 * 60 * 1000 ->
  let out :=
    getAccessToken appId clientSecret cachedToken nowCheck nowStore
      (Fulfilled res) in
  let again :=
    getAccessToken appId' clientSecret' (cachedTokenAfter out)
      nowCheck2 nowStore2 net2 in
  tokenResult again = Returned tok
  /\ tokenFetches again = []
  /\ cachedTokenAfter again = cachedTokenAfter out.
Proof.
  intros U J D A N W out again. subst again out.
  rewrite (fetch_success _ _ _ _ _ _ _ _ _ U J D A N).
  cbn [cachedTokenAfter]. rewrite getAccessToken_hit by exact W.
  repeat split.
Qed.

(** X12.  A failure is not remembered: when a call that had to fetch
    throws, the cache is as before, and the next call, made when the clock
    has not gone back, fetches again. *)
Theorem failed_fetch_is_retried
    (appId clientSecret : string) (cachedToken : option CachedToken)
    (nowCheck nowStore : Z) (net : Settled (Response B))
    (e : JsError)
    (nowCheck2 nowStore2 : Z) (net2 : Settled (Response B)) :
  ~ usableAt nowCheck cachedToken ->
  nowCheck <= nowCheck2 ->
  let out :=
    getAccessToken appId clientSecret cachedToken nowCheck nowStore net in
  tokenResult out = Threw e ->
  cachedTokenAfter out = cachedToken
  /\ tokenFetches
       (getAccessToken appId clientSecret (cachedTokenAfter out)
          nowCheck2 nowStore2 net2)
     = [tokenCall appId clientSecret].
Proof.
  intros U M out R. subst out.
  rewrite getAccessToken_miss in * by exact U.
  rewrite (fetch_threw_keeps _ _ _ _ _ _ R). split; [reflexivity|].
  rewrite getAccessToken_miss; [apply fetchAccessToken_once|].
  intros (c & E & Lt). apply U. exists c. split; [exact E | lia].
Qed.

(** X13.  [getAccessToken] does not read the status of the response: with
    the same body, a success and a failure status give the same outcome.
    So a response with a failure status whose body holds a non-empty
    [access_token] is accepted: the token is returned and cached. *)
Theorem token_fetch_ignores_status
    (appId clientSecret : string) (cachedToken : option CachedToken)
    (nowCheck nowStore : Z) (parsed : Settled B) :
  (forall status status',
     getAccessToken appId clientSecret cachedToken nowCheck nowStore
       (Fulfilled (mkResponse status parsed))
     = getAccessToken appId clientSecret cachedToken nowCheck nowStore
         (Fulfilled (mkResponse status' parsed)))
  /\ (forall body data tok,
        ~ usableAt nowCheck cachedToken ->
        parsed = Fulfilled body ->
        asTokenData body = Some data ->
        access_token data = Some tok -> tok <> "" ->
        let out :=
          getAccessToken appId clientSecret cachedToken nowCheck nowStore
            (Fulfilled (mkResponse false parsed)) in
        tokenResult out = Returned tok
        /\ exists c, cachedTokenAfter out = Some c /\ token c = tok).
Proof.
  split; [reflexivity|].
  intros body data tok U P D A N out. subst out.
  rewrite (fetch_success appId clientSecret cachedToken nowCheck nowStore
             (mkResponse false parsed) body data tok U P D A N).
  split; [reflexivity|]. eexists. split; reflexivity.
Qed.

End CredentialSteps.

Section CredentialStepSamples.
Import Sample.

Lemma empty_access_token_is_missing_witness :
  let old := Some (mkCachedToken "old" 1000000) in
  let data := mkTokenData (Some "") (Some 7200) in
  ~ usableAt 900000 old
  /\ getAccessToken "app" "secret" old 900000 900100
       (Fulfilled (mkResponse true (Fulfilled data)))
     = mkTokenOutcome
         (Threw (mkError
            ("Failed to get access_token: " ++ JSON_stringify data)%string))
         old [tokenCall "app" "secret"].
Proof.
  intros old data.
  assert (U : ~ usableAt 900000 old).
  { intros (c & E & L). injection E as <-. simpl in L. lia. }
  split; [exact U|].
  exact (empty_access_token_is_missing "app" "secret" old 900000 900100
           (mkResponse true (Fulfilled data)) data data U eq_refl eq_refl
           eq_refl).
Defined.

Lemma cache_never_holds_empty_token_witness :
  let data := mkTokenData (Some "fresh") None in
  let out :=
    getAccessToken "app" "secret" None 0 1000
      (Fulfilled (mkResponse true (Fulfilled data))) in
  (forall c, @None CachedToken = Some c -> token c <> "")
  /\ (forall c, cachedTokenAfter out = Some c -> token c <> "")
  /\ (forall t, tokenResult out = Returned t -> t <> "").
Proof.
  intros data out.
  assert (H : forall c, @None CachedToken = Some c -> token c <> "")
    by discriminate.
  split; [exact H|].
  exact (cache_never_holds_empty_token "app" "secret" None 0 1000
           (Fulfilled (mkResponse true (Fulfilled data))) H).
Defined.

Lemma short_lived_token_is_refetched_witness :
  let data := mkTokenData (Some "brief") (Some 300) in
  let res := mkResponse true (Fulfilled data) in
  let out := getAccessToken "app" "secret" None 0 1000 (Fulfilled res) in
  ~ usableAt 0 None /\ 300 <= 300 /\ 1000 <= 1000
  /\ tokenResult out = Returned "brief"
  /\ tokenFetches
       (getAccessToken "app" "secret" (cachedTokenAfter out) 1000 1001
          (Rejected (ThrownError "down")))
     = [tokenCall "app" "secret"].
Proof.
  intros data res out.
  assert (U : ~ usableAt 0 None) by (intros (c & E & _); discriminate).
  assert (L : 300 <= 300) by lia.
  assert (M : 1000 <= 1000) by lia.
  split; [exact U|]. split; [exact L|]. split; [exact M|].
  exact (short_lived_token_is_refetched "app" "secret" None 0 1000 res data
           data "brief" 300 1000 1001 (Rejected (ThrownError "down"))
           U eq_refl eq_refl eq_refl ltac:(discriminate) eq_refl L M).
Defined.

Lemma cached_token_served_to_any_credentials_witness :
  let data := mkTokenData (Some "tokA") None in
  let res := mkResponse true (Fulfilled data) in
  let out := getAccessToken "appA" "secretA" None 0 1000 (Fulfilled res) in
  let again :=
    getAccessToken "appB" "secretB" (cachedTokenAfter out) 5000 5001
      (Rejected (ThrownError "down")) in
  ~ usableAt 0 None
  /\ 5000 < 1000 + 7200 * 1000 - 5 * 60 * 1000
  /\ tokenResult again = Returned "tokA"
  /\ tokenFetches again = []
  /\ cachedTokenAfter again = cachedTokenAfter out.
Proof.
  intros data res out again.
  assert (U : ~ usableAt 0 None) by (intros (c & E & _); discriminate).
  assert (W : 5000 < 1000 + 7200 * 1000 - 5 * 60 * 1000) by lia.
  split; [exact U|]. split; [exact W|].
  exact (cached_token_served_to_any_credentials
           "appA" "secretA" "appB" "secretB" None 0 1000 res data data "tokA"
           5000 5001 (Rejected (ThrownError "down"))
           U eq_refl eq_refl eq_refl ltac:(discriminate) W).
Defined.

Lemma token_fetch_ignores_status_witness :
  let data := mkTokenData (Some "tok5xx") (Some 7200) in
  let out :=
    getAccessToken "app" "secret" None 0 1000
      (Fulfilled (mkResponse false (Fulfilled data))) in
  ~ usableAt 0 None
  /\ tokenResult out = Returned "tok5xx"
  /\ exists c, cachedTokenAfter out = Some c /\ token c = "tok5xx".
Proof.
  intros data out.
  assert (U : ~ usableAt 0 None) by (intros (c & E & _); discriminate).
  split; [exact U|].
  exact (proj2 (token_fetch_ignores_status "app" "secret" None 0 1000
                  (Fulfilled data))
           data data "tok5xx" U eq_refl eq_refl eq_refl ltac:(discriminate)).
Defined.

Lemma failed_fetch_is_retried_witness :
  let old := Some (mkCachedToken "old" 1000000) in
  let down : Settled (Response TokenData) := Rejected (ThrownError "down") in
  let out := getAccessToken "app" "secret" old 900000 900100 down in
  ~ usableAt 900000 old /\ 900000 <= 950000
  /\ cachedTokenAfter out = old
  /\ tokenFetches
       (getAccessToken "app" "secret" (cachedTokenAfter out) 950000 950100
          down)
     = [tokenCall "app" "secret"].
Proof.
  intros old down out.
  assert (U : ~ usableAt 900000 old).
  { intros (c & E & L). injection E as <-. simpl in L. lia. }
  assert (M : 900000 <= 950000) by lia.
  split; [exact U|]. split; [exact M|].
  exact (failed_fetch_is_retried "app" "secret" old 900000 900100 down
           (mkError "Network error getting access_token: down")
           950000 950100 down U M eq_refl).
Defined.

End CredentialStepSamples.

(** ** The request wrapper and the operations built on it *)

Section RequestSteps.

Context {stringifyJson : Stringify Json}.
Context {T : Type} {stringifyT : Stringify T} {errorShapedT : ErrorShaped T}.


Lemma apiRequest_authorized accessToken method path body
    (net : Settled (Response T)) :
  Forall (authorized accessToken)
         (apiFetches (apiRequest accessToken method path body net)).
Proof.
  rewrite apiRequest_fetches. constructor; [|constructor].
  split; [reflexivity | now exists path].
Qed.


End RequestSteps.

Section GatewaySteps.

Context {stringifyJson : Stringify Json}.
Context {G : Type} {stringifyGateway : Stringify G}.
Context {errorShapedGateway : ErrorShaped G}.
Context {gatewayShapedG : GatewayShaped G}.

(** X15.  [getGatewayUrl] issues one GET of [/gateway] without a body.  It
    returns the [url] of the parsed body exactly when the request succeeds
    with a body that is not [null]; when the request succeeds with a body
    that is [null] it throws the [TypeError] of the read of [url].
    Otherwise it throws what [apiRequest] throws: an error of one of the
    three kinds for the path [/gateway], or, for a failure status with a
    body that is [null], the [TypeError] of the read of [message]. *)
Theorem getGatewayUrl_outcome (accessToken : string)
    (net : Settled (Response G)) :
  let out := getGatewayUrl accessToken net in
  apiFetches out
  = [mkFetchCall (API_BASE ++ "/gateway")%string
       (mkRequestInit "GET"
          [("Authorization", ("QQBot " ++ accessToken)%string);
           ("Content-Type", "application/json")]
          None)]
  /\ (forall u,
        apiResult out = Returned u
        <-> exists data gateway,
              succeeded net data /\ asGateway data = Some gateway
              /\ Gateway.url gateway = u)
  /\ (forall data, succeeded net data -> asGateway data = None ->
        apiResult out = Threw (typeError "url"))
  /\ (forall e, apiResult out = Threw e ->
        (exists data, succeeded net data /\ asGateway data = None
                      /\ e = typeError "url")
        \/ (forall data, ~ succeeded net data)
           /\ ((exists kind detail, hasKind kind "/gateway" e detail)
               \/ e = typeError "message")).
Proof.
  intros out. subst out. unfold getGatewayUrl.
  pose proof (apiRequest_fetches accessToken "GET" "/gateway" None net) as F.
  pose proof (apiRequest_returns accessToken "GET" "/gateway" None net) as R.
  pose proof (apiRequest_thrown accessToken "GET" "/gateway" None net) as E.
  destruct (apiResult (apiRequest accessToken "GET" "/gateway" None net))
    as [data|e] eqn:Q.
  - assert (S : succeeded net data) by now apply R.
    assert (Only : forall d, succeeded net d -> d = data).
    { intros d Sd. apply R in Sd. now injection Sd. }
    destruct (asGateway data) as [gateway|] eqn:A;
      cbn [apiFetches apiResult]; rewrite F;
      (split; [reflexivity|]); split; [|split| |split].
    + intros u. split.
      * intros [= <-]. now exists data, gateway.
      * intros (d & g & Sd & Ad & <-). apply Only in Sd. subst d.
        congruence.
    + intros d Sd Ad. apply Only in Sd. subst d. congruence.
    + discriminate.
    + intros u. split; [discriminate|].
      intros (d & g & Sd & Ad & _). apply Only in Sd. subst d. congruence.
    + intros d _ _. reflexivity.
    + intros e [= <-]. left. now exists data.
  - assert (No : forall d, ~ succeeded net d).
    { intros d Sd. apply R in Sd. discriminate. }
    cbn [apiFetches apiResult]. rewrite F.
    split; [reflexivity|]. split; [|split].
    + intros u. split; [discriminate|].
      intros (d & g & Sd & _). now apply No in Sd.
    + intros d Sd. now apply No in Sd.
    + intros e' [= <-]. right. split; [exact No|].
      destruct (E e eq_refl) as [K | [-> _]]; auto.
Qed.

End GatewaySteps.

Section FacadeSteps.
Import JsMap JsMapFacts.

Variable base : Z.

Context {stringifyJson : Stringify Json}.
Context {T : Type} {stringifyT : Stringify T} {errorShapedT : ErrorShaped T}.
Context {U : Type} {stringifyUpload : Stringify U}.
Context {errorShapedUpload : ErrorShaped U} {uploadShapedU : UploadShaped U}.
Context {G : Type} {stringifyGateway : Stringify G}.
Context {errorShapedGateway : ErrorShaped G}.
Context {gatewayShapedG : GatewayShaped G}.

Lemma image_fetches_authorized accessToken
    (up : ApiOutcome U)
    (next : UploadMediaResponse -> ApiOutcome T * JsMap.t) (tr : JsMap.t) :
  Forall (authorized accessToken) (apiFetches up) ->
  (forall u, Forall (authorized accessToken) (apiFetches (fst (next u)))) ->
  Forall (authorized accessToken)
    (apiFetches
       (fst (match apiResult up with
             | Threw e => (mkApiOutcome (Threw e) (apiFetches up), tr)
             | Returned uploadResult =>
                 match asUpload uploadResult with
                 | None =>
                     (mkApiOutcome (Threw (typeError "file_info"))
                        (apiFetches up), tr)
                 | Some u =>
                     let (sent, tracker') := next u in
                     (mkApiOutcome (apiResult sent)
                        (apiFetches up ++ apiFetches sent), tracker')
                 end
             end))).
Proof.
  intros Up N. destruct (apiResult up) as [ubody|e]; [|exact Up].
  destruct (asUpload ubody) as [u|]; [|exact Up].
  specialize (N u). destruct (next u) as [sent tr'].
  cbn [fst apiFetches] in *. apply Forall_app. now split.
Qed.

(** An image send whose upload returned nothing to read stops after it. *)
Lemma image_without_upload
    (send : string -> ApiOutcome T * JsMap.t) (tr : JsMap.t)
    (up : ApiOutcome U) :
  (forall ubody uploaded,
     apiResult up = Returned ubody -> asUpload ubody <> Some uploaded) ->
  let r :=
    match apiResult up with
    | Threw e => (mkApiOutcome (Threw e) (apiFetches up), tr)
    | Returned uploadResult =>
        match asUpload uploadResult with
        | None =>
            (mkApiOutcome (Threw (typeError "file_info")) (apiFetches up), tr)
        | Some u =>
            let (sent, tracker') := send (file_info u) in
            (mkApiOutcome (apiResult sent) (apiFetches up ++ apiFetches sent),
             tracker')
        end
    end in
  snd r = tr /\ apiFetches (fst r) = apiFetches up
  /\ exists e, apiResult (fst r) = Threw e
       /\ (apiResult up = Threw e
           \/ (exists ubody, apiResult up = Returned ubody
                             /\ asUpload ubody = None)
              /\ e = typeError "file_info").
Proof.
  intros N r. subst r. destruct (apiResult up) as [ubody|e] eqn:R.
  - destruct (asUpload ubody) as [u|] eqn:A.
    + exfalso. now apply (N ubody u).
    + repeat split. eexists. split; [reflexivity|]. right.
      split; [now exists ubody | reflexivity].
  - repeat split. exists e. auto.
Qed.

Ltac authorized_send :=
  match goal with
  | |- context [msgSeqFor ?b ?i ?t] => destruct (msgSeqFor b i t)
  | _ => idtac
  end;
  cbn [fst]; apply apiRequest_authorized.

(** X16.  Every request issued by any operation of the module that takes
    an access token goes to a URL under [API_BASE] and carries the token
    in its [Authorization] header as [QQBot <token>], with content type
    JSON. *)
Theorem every_request_is_authorized
    (accessToken target content fileInfo url : string)
    (fileType : MediaFileType) (srvSendMsg : option bool)
    (msgId text : option string) (tr : JsMap.t)
    (net : Settled (Response T))
    (netUpload : Settled (Response U))
    (netGateway : Settled (Response G)) :
  let ok_all {A} (r : ApiOutcome A) :=
    Forall (authorized accessToken) (apiFetches r) in
  ok_all (getGatewayUrl accessToken netGateway)
  /\ ok_all (fst (sendC2CMessage base accessToken target content msgId tr net))
  /\ ok_all (fst (sendChannelMessage accessToken target content msgId tr net))
  /\ ok_all (fst (sendGroupMessage base accessToken target content msgId tr net))
  /\ ok_all (fst (sendProactiveC2CMessage accessToken target content tr net))
  /\ ok_all (fst (sendProactiveGroupMessage accessToken target content tr net))
  /\ ok_all (uploadC2CMedia accessToken target fileType url srvSendMsg netUpload)
  /\ ok_all (uploadGroupMedia accessToken target fileType url srvSendMsg netUpload)
  /\ ok_all (fst (sendC2CMediaMessage base accessToken target fileInfo msgId
                    text tr net))
  /\ ok_all (fst (sendGroupMediaMessage base accessToken target fileInfo msgId
                    text tr net))
  /\ ok_all (fst (sendC2CImageMessage base accessToken target url msgId text
                    tr netUpload net))
  /\ ok_all (fst (sendGroupImageMessage base accessToken target url msgId text
                    tr netUpload net)).
Proof.
  intros ok_all. subst ok_all. cbv beta.
  repeat match goal with |- _ /\ _ => split end.
  - unfold getGatewayUrl.
    pose proof (apiRequest_authorized accessToken "GET" "/gateway" None
                  netGateway) as A.
    destruct (apiResult (apiRequest accessToken "GET" "/gateway" None
                           netGateway)) as [data|e]; [|exact A].
    now destruct (asGateway data).
  - unfold sendC2CMessage. authorized_send.
  - unfold sendChannelMessage. authorized_send.
  - unfold sendGroupMessage. authorized_send.
  - unfold sendProactiveC2CMessage. authorized_send.
  - unfold sendProactiveGroupMessage. authorized_send.
  - unfold uploadC2CMedia. apply apiRequest_authorized.
  - unfold uploadGroupMedia. apply apiRequest_authorized.
  - unfold sendC2CMediaMessage. authorized_send.
  - unfold sendGroupMediaMessage. authorized_send.
  - unfold sendC2CImageMessage. apply image_fetches_authorized.
    + unfold uploadC2CMedia. apply apiRequest_authorized.
    + intros u. unfold sendC2CMediaMessage. authorized_send.
  - unfold sendGroupImageMessage. apply image_fetches_authorized.
    + unfold uploadGroupMedia. apply apiRequest_authorized.
    + intros u. unfold sendGroupMediaMessage. authorized_send.
Qed.

(** X17.  When the upload of an image send returns no body to read (the
    upload fails, or it completes with a body that is [null]), the
    operation stops there: the upload is the only request issued, the
    operation throws, and the sequence table is left as it was, so that no
    sequence number is used up.  What is thrown is the error of the upload
    (one of the three kinds for the [files] path, or the [TypeError] of the
    read of [message] on a failure body that is [null]), or, after an
    upload that completed with [null], the [TypeError] of the read of
    [file_info]. *)
Theorem failed_upload_sends_nothing
    (accessToken target imageUrl : string) (msgId text : option string)
    (tr : JsMap.t) (netUpload : Settled (Response U))
    (netSend : Settled (Response T)) :
  (forall ubody uploaded,
     succeeded netUpload ubody -> asUpload ubody <> Some uploaded) ->
  let c2c := sendC2CImageMessage base accessToken target imageUrl msgId text
               tr netUpload netSend in
  let group := sendGroupImageMessage base accessToken target imageUrl msgId
                 text tr netUpload netSend in
  let thrown path e :=
    (forall ubody, ~ succeeded netUpload ubody)
    /\ ((exists kind detail, hasKind kind path e detail)
        \/ e = typeError "message")
    \/ (exists ubody, succeeded netUpload ubody /\ asUpload ubody = None)
       /\ e = typeError "file_info" in
  (snd c2c = tr
   /\ apiFetches (fst c2c)
      = [apiCall accessToken "POST" ("/v2/users/" ++ target ++ "/files")%string
           (Some (uploadBody IMAGE imageUrl false))]
   /\ exists e,
        apiResult (fst c2c) = Threw e
        /\ thrown ("/v2/users/" ++ target ++ "/files")%string e)
  /\ (snd group = tr
      /\ apiFetches (fst group)
         = [apiCall accessToken "POST"
              ("/v2/groups/" ++ target ++ "/files")%string
              (Some (uploadBody IMAGE imageUrl false))]
      /\ exists e,
           apiResult (fst group) = Threw e
           /\ thrown ("/v2/groups/" ++ target ++ "/files")%string e).
Proof.
  intros N c2c group thrown. subst c2c group thrown. cbv beta.
  assert (Main : forall path send,
    let up := apiRequest accessToken "POST" path
                (Some (uploadBody IMAGE imageUrl false)) netUpload in
    let r :=
      match apiResult up with
      | Threw e => (mkApiOutcome (Threw e) (apiFetches up), tr)
      | Returned uploadResult =>
          match asUpload uploadResult with
          | None =>
              (mkApiOutcome (Threw (typeError "file_info")) (apiFetches up),
               tr)
          | Some u =>
              let (sent, tracker') :=
                (send (file_info u) : ApiOutcome T * JsMap.t) in
              (mkApiOutcome (apiResult sent)
                 (apiFetches up ++ apiFetches sent), tracker')
          end
      end in
    snd r = tr
    /\ apiFetches (fst r)
       = [apiCall accessToken "POST" path
            (Some (uploadBody IMAGE imageUrl false))]
    /\ exists e,
         apiResult (fst r) = Threw e
         /\ ((forall ubody, ~ succeeded netUpload ubody)
             /\ ((exists kind detail, hasKind kind path e detail)
                 \/ e = typeError "message")
             \/ (exists ubody,
                   succeeded netUpload ubody /\ asUpload ubody = None)
                /\ e = typeError "file_info")).
  { intros path send up r.
    pose proof (apiRequest_returns accessToken "POST" path
                  (Some (uploadBody IMAGE imageUrl false)) netUpload) as R.
    fold up in R.
    destruct (image_without_upload send tr up) as (E1 & E2 & e & E3 & E4).
    - intros ubody uploaded Q. apply N. now apply R.
    - split; [exact E1|]. split.
      + etransitivity; [exact E2|]. apply apiRequest_fetches.
      + exists e. split; [exact E3|].
        destruct E4 as [Q | [(ubody & Q & A) ->]].
        * left. split.
          -- intros ubody Sb. apply R in Sb. congruence.
          -- destruct (apiRequest_thrown _ _ _ _ _ _ Q) as [K | [-> _]]; auto.
        * right. split; [|reflexivity]. exists ubody. split; [|exact A].
          now apply R. }
  split.
  - exact (Main ("/v2/users/" ++ target ++ "/files")%string
             (fun fileInfo =>
                sendC2CMediaMessage base accessToken target fileInfo msgId
                  text tr netSend)).
  - exact (Main ("/v2/groups/" ++ target ++ "/files")%string
             (fun fileInfo =>
                sendGroupMediaMessage base accessToken target fileInfo msgId
                  text tr netSend)).
Qed.

(** X18.  When the upload of an image send succeeds with a body that is
    not [null], the operation issues two requests, the upload and then the
    rich-media send; the send carries the [file_info] the upload returned,
    and the result and the sequence table are those of the rich-media
    send. *)
Theorem image_send_is_upload_then_media_send
    (accessToken target imageUrl : string) (msgId text : option string)
    (tr : JsMap.t) (netUpload : Settled (Response U))
    (netSend : Settled (Response T)) (ubody : U)
    (up : UploadMediaResponse) :
  succeeded netUpload ubody ->
  asUpload ubody = Some up ->
  let c2c := sendC2CImageMessage base accessToken target imageUrl msgId text
               tr netUpload netSend in
  let c2cSend := sendC2CMediaMessage base accessToken target (file_info up)
                   msgId text tr netSend in
  let group := sendGroupImageMessage base accessToken target imageUrl msgId
                 text tr netUpload netSend in
  let groupSend := sendGroupMediaMessage base accessToken target (file_info up)
                     msgId text tr netSend in
  (apiResult (fst c2c) = apiResult (fst c2cSend)
   /\ snd c2c = snd c2cSend
   /\ exists obj,
        apiFetches (fst c2c)
        = [apiCall accessToken "POST"
             ("/v2/users/" ++ target ++ "/files")%string
             (Some (uploadBody IMAGE imageUrl false));
           apiCall accessToken "POST"
             ("/v2/users/" ++ target ++ "/messages")%string (Some obj)]
        /\ field "media" obj
           = Some (JObj [("file_info", JStr (file_info up))]))
  /\ (apiResult (fst group) = apiResult (fst groupSend)
      /\ snd group = snd groupSend
      /\ exists obj,
           apiFetches (fst group)
           = [apiCall accessToken "POST"
                ("/v2/groups/" ++ target ++ "/files")%string
                (Some (uploadBody IMAGE imageUrl false));
              apiCall accessToken "POST"
                ("/v2/groups/" ++ target ++ "/messages")%string (Some obj)]
           /\ field "media" obj
              = Some (JObj [("file_info", JStr (file_info up))])).
Proof.
  intros S A c2c c2cSend group groupSend.
  subst c2c c2cSend group groupSend.
  unfold sendC2CImageMessage, sendGroupImageMessage, uploadC2CMedia,
    uploadGroupMedia.
  split.
  - apply (apiRequest_returns accessToken "POST"
             ("/v2/users/" ++ target ++ "/files")%string
             (Some (uploadBody IMAGE imageUrl false))) in S.
    rewrite S, A, apiRequest_fetches. unfold sendC2CMediaMessage.
    destruct (msgSeqFor base msgId tr) as [msgSeq tr'].
    cbn [fst snd apiResult apiFetches]. rewrite apiRequest_fetches.
    repeat split. eexists. split; reflexivity.
  - apply (apiRequest_returns accessToken "POST"
             ("/v2/groups/" ++ target ++ "/files")%string
             (Some (uploadBody IMAGE imageUrl false))) in S.
    rewrite S, A, apiRequest_fetches. unfold sendGroupMediaMessage.
    destruct (msgSeqFor base msgId tr) as [msgSeq tr'].
    cbn [fst snd apiResult apiFetches]. rewrite apiRequest_fetches.
    repeat split. eexists. split; reflexivity.
Qed.

End FacadeSteps.

Section FacadeBodies.
Import JsMap JsMapFacts.

Variable base : Z.

Context {stringifyJson : Stringify Json}.
Context {T : Type} {stringifyT : Stringify T} {errorShapedT : ErrorShaped T}.

Lemma media_body_content fileInfo msgSeq msgId text :
  field "content" (mediaMessageBody fileInfo msgSeq msgId text)
  = if truthyOpt text then option_map JStr text else None.
Proof.
  unfold mediaMessageBody, contentSpread, msgIdSpread, truthyOpt.
  destruct text as [c|]; [destruct (truthyString c)|];
    (destruct msgId as [m|]; [destruct (truthyString m)|]); reflexivity.
Qed.

(** X19.  The proactive sends go to the same URLs as the reply sends, with
    the content and message type 0, but carry neither a sequence number
    nor a message identifier, and leave the sequence table as it was. *)
Theorem proactive_sends_use_no_sequence
    (accessToken target content : string) (tr : JsMap.t)
    (net : Settled (Response T)) :
  let c2c := sendProactiveC2CMessage accessToken target content tr net in
  let group := sendProactiveGroupMessage accessToken target content tr net in
  (exists obj,
     c2c = (apiRequest accessToken "POST"
              ("/v2/users/" ++ target ++ "/messages")%string (Some obj) net, tr)
     /\ carries obj None None
     /\ field "content" obj = Some (JStr content)
     /\ field "msg_type" obj = Some (JNum 0))
  /\ (exists obj,
        group = (apiRequest accessToken "POST"
                   ("/v2/groups/" ++ target ++ "/messages")%string (Some obj)
                   net, tr)
        /\ carries obj None None
        /\ field "content" obj = Some (JStr content)
        /\ field "msg_type" obj = Some (JNum 0))
  /\ map url (apiFetches (fst c2c))
     = map url (apiFetches
                  (fst (sendC2CMessage base accessToken target content None
                          tr net)))
  /\ map url (apiFetches (fst group))
     = map url (apiFetches
                  (fst (sendGroupMessage base accessToken target content None
                          tr net))).
Proof.
  intros c2c group. subst c2c group.
  unfold sendProactiveC2CMessage, sendProactiveGroupMessage,
    sendC2CMessage, sendGroupMessage, proactiveMessageBody.
  cbn [msgSeqFor fst]. rewrite !apiRequest_fetches.
  split; [|split; [|split; reflexivity]];
    (eexists; split; [reflexivity|]; repeat split).
Qed.

(** X20.  The counter of a message identifier is shared by all reply
    operations and advances whether or not the request goes through: on a
    table within the capacity, a C2C text reply followed by a group
    rich-media reply to the same identifier carry consecutive sequence
    numbers, whatever the two network outcomes; so do a reply and its
    repetition. *)
Theorem replies_share_one_counter
    (accessToken user group content fileInfo m : string)
    (text : option string) (tr : JsMap.t)
    (net1 net2 : Settled (Response T)) :
  wf tr -> size tr <= 1000 -> m <> "" ->
  let n := fst (getNextMsgSeq base m tr) in
  let first := sendC2CMessage base accessToken user content (Some m) tr net1 in
  (exists obj1 obj2,
     fst first
     = apiRequest accessToken "POST"
         ("/v2/users/" ++ user ++ "/messages")%string (Some obj1) net1
     /\ fst (sendGroupMediaMessage base accessToken group fileInfo (Some m)
               text (snd first) net2)
        = apiRequest accessToken "POST"
            ("/v2/groups/" ++ group ++ "/messages")%string (Some obj2) net2
     /\ carries obj1 (Some n) (Some m)
     /\ carries obj2 (Some (n + 1)) (Some m))
  /\ (exists obj2,
        fst (sendC2CMessage base accessToken user content (Some m)
               (snd first) net2)
        = apiRequest accessToken "POST"
            ("/v2/users/" ++ user ++ "/messages")%string (Some obj2) net2
        /\ carries obj2 (Some (n + 1)) (Some m)).
Proof.
  intros W S N n first. subst n first.
  unfold sendC2CMessage, sendGroupMediaMessage, c2cMessageBody,
    mediaMessageBody.
  rewrite (msgSeqFor_reply base m tr N), (msgIdSpread_reply m N).
  unfold getNextMsgSeq at 1 2 3. cbn [fst snd].
  rewrite !(msgSeqFor_reply base m _ N). unfold getNextMsgSeq. cbn [fst snd].
  destruct (seqStep_keeps base m tr W S) as (W1 & S1 & G1).
  rewrite (seqStep_present base m _ _ G1 S1). cbn [issued tracker].
  replace (base + (issued (seqStep base m tr) - base + 1))
    with (issued (seqStep base m tr) + 1) by lia.
  split.
  - eexists. eexists. split; [reflexivity|]. split; [reflexivity|].
    split; [now apply text_body_carries | now apply media_body_carries].
  - eexists. split; [reflexivity|]. now apply text_body_carries.
Qed.

(** X21.  A rich-media send carries the accompanying text only when it is
    not empty, while a text send carries its content even when empty. *)
Theorem empty_text_is_left_out
    (accessToken target fileInfo content : string)
    (msgId text : option string) (tr : JsMap.t)
    (net : Settled (Response T)) :
  (exists obj,
     fst (sendC2CMediaMessage base accessToken target fileInfo msgId text
            tr net)
     = apiRequest accessToken "POST"
         ("/v2/users/" ++ target ++ "/messages")%string (Some obj) net
     /\ field "content" obj
        = if truthyOpt text then option_map JStr text else None)
  /\ (exists obj,
        fst (sendGroupMediaMessage base accessToken target fileInfo msgId text
               tr net)
        = apiRequest accessToken "POST"
            ("/v2/groups/" ++ target ++ "/messages")%string (Some obj) net
        /\ field "content" obj
           = if truthyOpt text then option_map JStr text else None)
  /\ (exists obj,
        fst (sendC2CMessage base accessToken target content msgId tr net)
        = apiRequest accessToken "POST"
            ("/v2/users/" ++ target ++ "/messages")%string (Some obj) net
        /\ field "content" obj = Some (JStr content))
  /\ (exists obj,
        fst (sendGroupMessage base accessToken target content msgId tr net)
        = apiRequest accessToken "POST"
            ("/v2/groups/" ++ target ++ "/messages")%string (Some obj) net
        /\ field "content" obj = Some (JStr content)).
Proof.
  unfold sendC2CMediaMessage, sendGroupMediaMessage, sendC2CMessage,
    sendGroupMessage.
  destruct (msgSeqFor base msgId tr) as [msgSeq tr']. cbn [fst].
  repeat split; eexists;
    (split; [reflexivity|]);
    first [apply media_body_content | reflexivity].
Qed.

End FacadeBodies.

Section FacadeStepSamples.
Import Sample SampleGateway JsMap.


Lemma getGatewayUrl_outcome_witness :
  let data := Some (Gateway.mk "wss://sandbox.api.sgroup.qq.com/websocket") in
  let net : Settled (Response (option Gateway.t)) :=
    Fulfilled (mkResponse true (Fulfilled data)) in
  let null : Settled (Response (option Gateway.t)) :=
    Fulfilled (mkResponse true (Fulfilled None)) in
  succeeded net data
  /\ apiResult (getGatewayUrl "tok" net)
     = Returned "wss://sandbox.api.sgroup.qq.com/websocket"
  /\ succeeded null None
  /\ apiResult (getGatewayUrl "tok" null) = Threw (typeError "url").
Proof.
  intros data net null.
  assert (S : succeeded net data)
    by (exists (mkResponse true (Fulfilled data)); repeat split).
  assert (S0 : succeeded null None)
    by (exists (mkResponse true (Fulfilled None)); repeat split).
  split; [exact S|]. split; [|split; [exact S0|]].
  - apply (proj1 (proj2 (getGatewayUrl_outcome "tok" net))).
    exists data, (Gateway.mk "wss://sandbox.api.sgroup.qq.com/websocket").
    split; [exact S|]. split; reflexivity.
  - exact (proj1 (proj2 (proj2 (getGatewayUrl_outcome "tok" null)))
             None S0 eq_refl).
Defined.

Lemma failed_upload_sends_nothing_witness :
  let netUpload : Settled (Response (option UploadMediaResponse)) :=
    Fulfilled (mkResponse true (Fulfilled None)) in
  let netSend : Settled (Response ErrorBody.t) :=
    Fulfilled (mkResponse true (Fulfilled (ErrorBody.mk None None))) in
  let tr : JsMap.t := [("m1", 2)] in
  let r := sendC2CImageMessage base "tok" "u1" "https://img/x.png"
             (Some "m1") None tr netUpload netSend in
  (forall ubody uploaded,
     succeeded netUpload ubody -> asUpload ubody <> Some uploaded)
  /\ snd r = tr
  /\ apiFetches (fst r)
     = [apiCall "tok" "POST" "/v2/users/u1/files"
          (Some (uploadBody IMAGE "https://img/x.png" false))].
Proof.
  intros netUpload netSend tr r.
  assert (N : forall ubody uploaded,
            succeeded netUpload ubody -> asUpload ubody <> Some uploaded).
  { intros ubody uploaded (res & E & J & _). injection E as <-.
    injection J as <-. discriminate. }
  split; [exact N|].
  destruct (proj1 (failed_upload_sends_nothing base "tok" "u1"
                     "https://img/x.png" (Some "m1") None tr netUpload netSend
                     N)) as (A & F & _).
  split; [exact A | exact F].
Defined.

Lemma image_send_is_upload_then_media_send_witness :
  let up := mkUploadMediaResponse "uuid" "info-1" 3600 None in
  let netUpload : Settled (Response (option UploadMediaResponse)) :=
    Fulfilled (mkResponse true (Fulfilled (Some up))) in
  let netSend : Settled (Response ErrorBody.t) :=
    Fulfilled (mkResponse true (Fulfilled (ErrorBody.mk None None))) in
  let tr : JsMap.t := [("m1", 2)] in
  succeeded netUpload (Some up)
  /\ asUpload (Some up) = Some up
  /\ snd (sendC2CImageMessage base "tok" "u1" "https://img/x.png"
            (Some "m1") None tr netUpload netSend)
     = snd (sendC2CMediaMessage base "tok" "u1" "info-1" (Some "m1") None tr
              netSend).
Proof.
  intros up netUpload netSend tr.
  assert (S : succeeded netUpload (Some up))
    by (exists (mkResponse true (Fulfilled (Some up))); repeat split).
  split; [exact S|]. split; [reflexivity|].
  exact (proj1 (proj2 (proj1
           (image_send_is_upload_then_media_send base "tok" "u1"
              "https://img/x.png" (Some "m1") None tr netUpload netSend
              (Some up) up S eq_refl)))).
Defined.

Lemma replies_share_one_counter_witness :
  let down : Settled (Response ErrorBody.t) := Rejected (ThrownError "down") in
  let tr : JsMap.t := [("m1", 2)] in
  let first := sendC2CMessage base "tok" "u1" "hi" (Some "m1") tr down in
  wf tr /\ size tr <= 1000 /\ "m1" <> ""
  /\ exists obj2,
       fst (sendC2CMessage base "tok" "u1" "hi" (Some "m1") (snd first) down)
       = apiRequest "tok" "POST" "/v2/users/u1/messages" (Some obj2) down
       /\ carries obj2 (Some (base + 3 + 1)) (Some "m1").
Proof.
  intros down tr first.
  assert (W : wf tr) by (repeat constructor; simpl; tauto).
  assert (S : size tr <= 1000) by (vm_compute; discriminate).
  assert (N : "m1" <> "") by discriminate.
  split; [exact W|]. split; [exact S|]. split; [exact N|].
  exact (proj2 (replies_share_one_counter base "tok" "u1" "g1" "hi" "info"
                  "m1" None tr down down W S N)).
Defined.

End FacadeStepSamples.

(** ** Any number of distinct keys *)

Section DistinctKeyRuns.
Import JsMap JsMapFacts.

Variable base : Z.

Lemma keptAfter_step n :
  (keptAfter n <= 1000)%nat /\ (keptAfter n <= n)%nat
  /\ ((keptAfter n < 1000)%nat ->
      keptAfter (S n) = S (keptAfter n) /\ sweepsAfter (S n) = sweepsAfter n)
  /\ (keptAfter n = 1000%nat ->
      keptAfter (S n) = 501%nat /\ sweepsAfter (S n) = S (sweepsAfter n)).
Proof.
  unfold keptAfter, sweepsAfter.
  destruct (Nat.leb_spec n 1000); destruct (Nat.leb_spec (S n) 1000);
    try lia.
  - replace (S n - 1001)%nat with 0%nat by lia. cbn. lia.
  - replace (S n - 1001)%nat with (S (n - 1001)) by lia.
    pose proof (Nat.div_mod_eq (n - 1001) 500).
    pose proof (Nat.mod_upper_bound (n - 1001) 500 ltac:(lia)).
    pose proof (Nat.div_mod_eq (S (n - 1001)) 500).
    pose proof (Nat.mod_upper_bound (S (n - 1001)) 500 ltac:(lia)).
    nia.
Qed.

Lemma sweepCount_snoc ks k m :
  sweepCount base (ks ++ [k]) m
  = (sweepCount base ks m
     + if swept (seqStep base k (finalTracker base ks m)) then 1 else 0)%nat.
Proof.
  rewrite sweepCount_app. f_equal. unfold sweepCount. cbn [runSeq filter].
  now destruct (swept (seqStep base k (finalTracker base ks m))).
Qed.

Lemma finalTracker_snoc ks k m :
  finalTracker base (ks ++ [k]) m
  = tracker (seqStep base k (finalTracker base ks m)).
Proof. now rewrite finalTracker_app. Qed.

Lemma distinct_run ks :
  NoDup ks ->
  finalTracker base ks empty
  = map fresh1 (skipn (List.length ks - keptAfter (List.length ks)) ks)
  /\ sweepCount base ks empty = sweepsAfter (List.length ks).
Proof.
  induction ks as [|k ks IH] using rev_ind; intros N; [split; reflexivity|].
  apply NoDup_app_parts in N. destruct N as (Nks & _ & D).
  destruct (IH Nks) as [F C]. clear IH.
  set (n := List.length ks) in *.
  destruct (keptAfter_step n) as (B1 & B2 & Room & Full).
  set (t := map fresh1 (skipn (n - keptAfter n) ks)) in *.
  assert (Kt : keys t = skipn (n - keptAfter n) ks) by apply keys_fresh1.
  assert (Wt : wf t).
  { unfold wf. rewrite Kt. clear -Nks.
    rewrite <- (firstn_skipn (n - keptAfter n) ks) in Nks.
    now apply NoDup_app_parts in Nks. }
  assert (St : size t = Z.of_nat (keptAfter n)).
  { unfold size, t. rewrite length_map, length_skipn. fold n. lia. }
  assert (G : get k t = None).
  { apply get_notin. rewrite Kt. intros I.
    apply (D k); [|now left].
    rewrite <- (firstn_skipn (n - keptAfter n) ks). apply in_or_app. now right. }
  rewrite finalTracker_snoc, sweepCount_snoc, F, C, length_app.
  cbn [List.length]. fold n. replace (n + 1)%nat with (S n) by lia.
  destruct (Nat.eq_dec (keptAfter n) 1000) as [E|E].
  - destruct (Full E) as [K1 S1].
    rewrite (seqStep_fresh_full base k t Wt G) by lia.
    cbn [tracker swept]. rewrite K1, S1. split; [|lia].
    unfold t. change [(k, 1)] with (map fresh1 [k]).
    rewrite <- map_app, skipn_map. f_equal.
    replace (skipn (n - keptAfter n) ks ++ [k])
      with (skipn (n - keptAfter n) (ks ++ [k])).
    + rewrite skipn_skipn. f_equal. lia.
    + rewrite skipn_app.
      replace (n - keptAfter n - List.length ks)%nat with 0%nat by (fold n; lia).
      now rewrite skipn_O.
  - destruct (Room ltac:(lia)) as [K1 S1].
    rewrite (seqStep_fresh_room base k t G) by lia.
    cbn [tracker swept]. rewrite K1, S1. split; [|lia].
    unfold t. change [(k, 1)] with (map fresh1 [k]).
    rewrite <- map_app. f_equal.
    replace (S n - S (keptAfter n))%nat with (n - keptAfter n)%nat by lia.
    rewrite skipn_app.
    replace (n - keptAfter n - List.length ks)%nat with 0%nat by (fold n; lia).
    now rewrite skipn_O.
Qed.

(** X22.  One call each with [n] distinct keys from the empty table, for
    any [n]: nothing is swept up to 1000 keys; beyond, a sweep happens at
    call 1001 and at every 500th call after it, [1 + (n - 1001) / 500]
    sweeps in all; the table left holds the newest
    [501 + (n - 1001) mod 500] keys, each with counter 1. *)
Theorem distinct_keys_closed_form (msgIds : list string) :
  NoDup msgIds ->
  let n := List.length msgIds in
  sweepCount base msgIds empty = sweepsAfter n
  /\ finalTracker base msgIds empty
     = map fresh1 (skipn (n - keptAfter n) msgIds)
  /\ List.length (finalTracker base msgIds empty) = keptAfter n.
Proof.
  intros N n. destruct (distinct_run msgIds N) as [F C].
  split; [exact C|]. split; [exact F|].
  rewrite F, length_map, length_skipn. fold n.
  pose proof (keptAfter_step n). lia.
Qed.

End DistinctKeyRuns.

Section DistinctKeySamples.
Import Sample JsMap.

Lemma distinct_keys_closed_form_witness :
  let msgIds := keysFrom 0 2600 in
  NoDup msgIds
  /\ sweepCount base msgIds empty = 4%nat
  /\ List.length (finalTracker base msgIds empty) = 600%nat.
Proof.
  intros msgIds.
  assert (N : NoDup msgIds) by apply keysFrom_NoDup.
  split; [exact N|].
  destruct (distinct_keys_closed_form base msgIds N) as (C & _ & L).
  unfold msgIds in C, L. rewrite keysFrom_length in C, L.
  split; [exact C | exact L].
Defined.

End DistinctKeySamples.
